(** * Topic controller of esque: a shallow embedding and its properties

    The development follows [esque/controller/topic_controller.py].  The
    cluster is an explicit value holding what the two Kafka clients answer;
    every call that leaves the process is written to a trace, so that "which
    requests were sent, and in which order" is part of a function's result.
    Exceptions are values of type [exn]. *)

From Equations Require Import Equations.
From Stdlib Require Import QArith.
From stdpp Require Import base option list gmap strings sorting.

Open Scope Z_scope.

(** ** Values, exceptions and results *)

(** Python values as [TopicDiff.set_diff] receives them: [None], an [int]
    or a [str]. *)
Inductive value :=
| VNone
| VInt (z : Z)
| VStr (s : string).

#[global] Instance value_eq_dec : EqDecision value.
Proof. solve_decision. Defined.

Inductive exn :=
| TopicNotFoundError (code : Z)
| AssertionError (msg : string)
| KeyError (key : value)
| AdminOperationFailedError (code : Z)
| CompletionTimeoutError
| KafkaException (code : Z).

Inductive result (A : Type) :=
| Ok (a : A)
| Raise (e : exn).
Arguments Ok {A} a.
Arguments Raise {A} e.

(** ** Data of the clients *)

Record Message := {
  msg_partition : Z;
  msg_offset : Z;
  msg_timestamp : Z            (* [message.timestamp()[1]], milliseconds *)
}.

Record PartitionMetadata := {
  isrs : list Z;
  leader : Z;
  replicas : list Z
}.

(** [confluent_kafka.admin.TopicMetadata]: [error] is [None] when the
    lookup succeeded; [partitions] lists the items of the partition
    dictionary in iteration order. *)
Record ConfluentTopic := {
  ct_topic : string;
  ct_error : option Z;
  ct_partitions : list (Z * PartitionMetadata)
}.

Record PyKafkaTopic := {
  earliest_available_offsets : gmap Z Z;
  latest_available_offsets : gmap Z Z
}.

Record NewTopic := {
  nt_name : string;
  nt_num_partitions : Z;
  nt_replication_factor : Z;
  nt_config : gmap string string
}.

(** A completion future of the admin client, as it is found when awaited. *)
Inductive future :=
| Done
| Failed (code : Z)
| Pending.

(** One answer of [consume_single_message]: a message, or one of the two
    signals the resolver handles, or another exception of the client. *)
Inductive poll :=
| Delivered (m : Message)
| MessageEmptyException
| EndOfPartitionReachedException
| ConsumerFailure (e : exn).

(** A consumer bound to one partition is the list of answers still to
    come.  When the list is used up nothing more is delivered, and every
    further poll runs into its timeout. *)
Definition consumer := list poll.

Definition consume_single_message (c : consumer) : poll * consumer :=
  match c with
  | [] => (MessageEmptyException, [])
  | r :: c' => (r, c')
  end.

(** ** Calls that leave the process *)

Inductive event :=
| ListTopics (topic : option string) (timeout : option Z)
| ClientPoll (timeout : Z)
| EarliestAvailableOffsets (topic : string)
| LatestAvailableOffsets (topic : string)
| Consume (topic : string) (offset partition : Z)
| RetrieveConfig (topic : string)
| CreateTopics (t : NewTopic) (operation_timeout : Z)
| AlterConfigs (topic : string) (config : gmap string string)
| DeleteTopics (topic : string)
| AssignSpecificPartitions (topic : string) (partition : Z)
| ConsumeSingleMessage (partition : Z) (timeout : Z)
| InvalidateCache.

(** What the cluster answers.  [deliveries name p] is the consumer obtained
    by assigning a fresh consumer to partition [p] of topic [name]. *)
Record Cluster := {
  cluster_topics : list string;
  list_topics_of : string -> ConfluentTopic;
  pykafka_topics : gmap string PyKafkaTopic;
  log : string -> Z -> Z -> result Message;
  retrieve_config : string -> result (gmap string string);
  create_topics_future : NewTopic -> future;
  alter_configs_future : string -> gmap string string -> future;
  delete_topics_future : string -> future;
  deliveries : string -> Z -> consumer
}.

(** ** The monad: a trace of calls and a result or an exception *)

Definition M (A : Type) : Type := list event * result A.

#[global] Instance M_ret : MRet M := fun A a => ([], Ok a).

#[global] Instance M_bind : MBind M := fun A B f m =>
  match m with
  | (t, Ok a) => let '(t', r) := f a in (t ++ t', r)
  | (t, Raise e) => (t, Raise e)
  end.

Definition call (e : event) : M unit := ([e], Ok tt).
Definition raise {A} (e : exn) : M A := ([], Raise e).
Definition lift {A} (r : result A) : M A := ([], r).

(** [try: ... finally: ...]: the handler runs on both exits, and the
    exception of the body, if any, is raised again after it. *)
Definition try_finally {A} (body : M A) (handler : M unit) : M A :=
  match body with
  | (t, r) =>
      match handler with
      | (t', Ok _) => (t ++ t', r)
      | (t', Raise e) => (t ++ t', Raise e)
      end
  end.

Definition trace {A} (m : M A) : list event := m.1.
Definition outcome {A} (m : M A) : result A := m.2.

Fixpoint mapM {A B} (f : A -> M B) (l : list A) : M (list B) :=
  match l with
  | [] => mret []
  | x :: l' => y ← f x; ys ← mapM f l'; mret (y :: ys)
  end.

Fixpoint forM_ {A} (f : A -> M unit) (l : list A) : M unit :=
  match l with
  | [] => mret tt
  | x :: l' => f x;; forM_ f l'
  end.

(** ** Resources ([esque.resources.topic]) *)

(** Modelled from the spec: the [Partition] value object of
    [esque.resources.topic], which is not part of the sources at hand.  It
    stores the seven constructor arguments; the latest-record timestamp is
    absent for an empty partition.  The timestamp is kept in seconds, as
    the exact quotient of the milliseconds by 1000. *)
Record Partition := {
  partition_id : Z;
  low_watermark : Z;
  high_watermark : Z;
  partition_isrs : list Z;
  partition_leader : Z;
  partition_replicas : list Z;
  latest_message_timestamp : option Q
}.

(** Modelled from the spec: the [Topic] value object of
    [esque.resources.topic]: a name, the two optional counts, the
    configuration mapping, the partition snapshots and [is_only_local]. *)
Record Topic := {
  name : string;
  num_partitions : option Z;
  replication_factor : option Z;
  config : gmap string string;
  partition_data : list Partition;
  is_only_local : bool
}.

(** Modelled from the spec: the counts of a topic that was fetched from
    the cluster.  The spec has the cluster topic report the counts of the
    cluster (a topic created with 3 partitions and 1 replica reads as 3 and
    1): the number of its partition snapshots, and the number of replicas of
    its partitions, read off the first of them (the partitions of a topic
    share one replication factor); the latter is unknown for a topic without
    partitions. *)
Definition cluster_num_partitions (data : list Partition) : option Z :=
  Some (Z.of_nat (length data)).

Definition cluster_replication_factor (data : list Partition) : option Z :=
  match data with
  | [] => None
  | part :: _ => Some (Z.of_nat (length (partition_replicas part)))
  end.

(** Modelled from the spec: [Topic(name)], the bare local declaration,
    with nothing but the name specified. *)
Definition new_Topic (topic_name : string) : Topic :=
  {| name := topic_name; num_partitions := None; replication_factor := None;
     config := ∅; partition_data := []; is_only_local := true |}.

(** Modelled from the spec: the [partitions] property of [Topic], the
    ordered sequence of partition snapshots. *)
Definition partitions (t : Topic) : list Partition := partition_data t.

(** Modelled from the spec: [TopicDiff], a mapping from field name to the
    pair (cluster value, local value), populated by [set_diff] only for
    fields whose two values differ. *)
Definition set_diff (attr : string) (old_value new_value : value)
    (diffs : gmap string (value * value)) : gmap string (value * value) :=
  if decide (old_value = new_value) then diffs
  else <[attr := (old_value, new_value)]> diffs.

Definition of_int (o : option Z) : value :=
  match o with Some z => VInt z | None => VNone end.

Definition of_str (o : option string) : value :=
  match o with Some s => VStr s | None => VNone end.

(** ** Helpers ([esque.errors], [esque.helpers]) *)

(** Modelled from the spec: [raise_for_kafka_error] of [esque.errors];
    an error reported for the looked-up name is raised as
    [TopicNotFoundError]. *)
Definition raise_for_kafka_error (err : option Z) : M unit :=
  match err with
  | None => mret tt
  | Some code => raise (TopicNotFoundError code)
  end.

(** Modelled from the spec: [ensure_kafka_future_done] of
    [esque.helpers]; it waits for the completion future and raises the
    broker's error, or the timeout of the wait. *)
Definition ensure_kafka_future_done (f : future) : M unit :=
  match f with
  | Done => mret tt
  | Failed code => raise (AdminOperationFailedError code)
  | Pending => raise CompletionTimeoutError
  end.

(** Modelled from the spec: the decorator [invalidate_cache_after] of
    [esque.helpers], a try/finally around the decorated call whose handler
    invalidates the metadata cache. *)
Definition invalidate_cache_after {A} (body : M A) : M A :=
  try_finally body (call InvalidateCache).

Definition assert_ (b : bool) (msg : string) : M unit :=
  if b then mret tt else raise (AssertionError msg).

Definition getitem (d : gmap Z Z) (k : Z) : M Z :=
  match d !! k with
  | Some v => mret v
  | None => raise (KeyError (VInt k))
  end.

(** [{p.partition_id: 0 for p in ...}.keys()]: a key keeps the place of
    its first occurrence. *)
Fixpoint keys_in_order (l : list Z) : list Z :=
  match l with
  | [] => []
  | k :: l' => k :: filter (λ k', k' ≠ k) (keys_in_order l')
  end.

Record Config := {
  default_num_partitions : Z;
  default_replication_factor : Z
}.

Inductive ClientTypes := Confluent | PyKafka.

Definition ClientType (client_type : ClientTypes) : Type :=
  match client_type with
  | Confluent => ConfluentTopic
  | PyKafka => PyKafkaTopic
  end.

(** ** The scan of one partition *)

Record scan := {
  scan_consumer : consumer;
  max_retry_count : Z;
  keep_polling_current_partition : bool;
  partition_offsets : gmap Z Z
}.

(** [datetime.fromtimestamp(int(ts / 1000.0), utc) < timestamp_limit]: the
    milliseconds are cut to whole seconds (towards zero) before the
    comparison; [timestamp_limit] is an instant in microseconds, the
    resolution of a datetime.  For the timestamps a broker hands out (far
    below 2^53) the float quotient cut by [int] is the integer quotient
    [Z.quot]. *)
Definition earlier_than (m : Message) (timestamp_limit : Z) : bool :=
  bool_decide (Z.quot (msg_timestamp m) 1000 * 1000000 < timestamp_limit).

(** The body of the [while] loop: one [try] / [except] / [else]. *)
Definition poll_once (timestamp_limit : Z) (s : scan) : result scan :=
  let '(answer, c) := consume_single_message (scan_consumer s) in
  match answer with
  | MessageEmptyException =>
      let n := max_retry_count s - 1 in
      Ok {| scan_consumer := c; max_retry_count := n;
            keep_polling_current_partition :=
              if bool_decide (n <= 0) then false
              else keep_polling_current_partition s;
            partition_offsets := partition_offsets s |}
  | EndOfPartitionReachedException =>
      Ok {| scan_consumer := c; max_retry_count := max_retry_count s;
            keep_polling_current_partition := false;
            partition_offsets := partition_offsets s |}
  | ConsumerFailure e => Raise e
  | Delivered message =>
      Ok {| scan_consumer := c; max_retry_count := max_retry_count s;
            keep_polling_current_partition := keep_polling_current_partition s;
            partition_offsets :=
              if earlier_than message timestamp_limit
              then <[msg_partition message := msg_offset message + 1]> (partition_offsets s)
              else partition_offsets s |}
  end.

Definition scan_measure (s : scan) : nat :=
  if keep_polling_current_partition s
  then S (length (scan_consumer s) + Z.to_nat (max_retry_count s))
  else 0%nat.

Equations? poll_partition (timestamp_limit partition : Z) (s : scan) : M scan
  by wf (scan_measure s) lt :=
  poll_partition timestamp_limit partition s
    with Logic.inspect (keep_polling_current_partition s) := {
    | exist _ false _ => mret s
    | exist _ true Hkeep with Logic.inspect (poll_once timestamp_limit s) := {
        | exist _ (Raise e) _ => ([ConsumeSingleMessage partition 10], Raise e)
        | exist _ (Ok s') Hbody =>
            call (ConsumeSingleMessage partition 10);;
            poll_partition timestamp_limit partition s' } }.
Proof.
  clear poll_partition. revert Hbody.
  unfold poll_once, scan_measure, consume_single_message.
  rewrite Hkeep. destruct s as [c n k offs]; simpl.
  destruct c as [|[m| | |e] c]; simpl; intros [= <-]; simpl;
    repeat case_bool_decide; simpl; lia.
Qed.

(** ** The controller *)

Section TopicController.

(** [self.cluster] and [self.config]; [re_match pattern s] is Python's
    [re.match(pattern, s)] seen as a truth value, for a pattern that
    compiles. *)
Variable cluster : Cluster.
Variable controller_config : Config.
Variable re_match : string -> string -> bool.

Definition _get_client_topic (topic_name : string) (client_type : ClientTypes)
    : M (ClientType client_type) :=
  call (ListTopics (Some topic_name) (Some 10));;
  let confluent_topics := list_topics_of cluster in
  let topic_metadata := confluent_topics topic_name in
  raise_for_kafka_error (ct_error topic_metadata);;
  match client_type as c return M (ClientType c) with
  | Confluent => mret (confluent_topics topic_name)
  | PyKafka =>
      match pykafka_topics cluster !! topic_name with
      | Some t => mret t
      | None => raise (KeyError (VStr topic_name))
      end
  end.

Definition partition_snapshot (low_watermarks high_watermarks : gmap Z Z)
    (topic : Topic) (item : Z * PartitionMetadata) : M Partition :=
  let '(partition_id, meta) := item in
  low ← getitem low_watermarks partition_id;
  high ← getitem high_watermarks partition_id;
  latest_timestamp ←
    (if bool_decide (high > low) then
       call (Consume (name topic) (high - 1) partition_id);;
       message ← lift (log cluster (name topic) partition_id (high - 1));
       mret (Some (msg_timestamp message # 1000)%Q)
     else mret None);
  mret {| partition_id := partition_id; low_watermark := low;
          high_watermark := high; partition_isrs := isrs meta;
          partition_leader := leader meta;
          partition_replicas := replicas meta;
          latest_message_timestamp := latest_timestamp |}.

Definition _get_partition_data (confluent_topic : ConfluentTopic)
    (low_watermarks high_watermarks : gmap Z Z) (topic : Topic)
    : M (list Partition) :=
  mapM (partition_snapshot low_watermarks high_watermarks topic)
       (ct_partitions confluent_topic).

(** The function assigns [partition_data], [config] and [is_only_local];
    the two counts of the topic are properties that, once the topic is no
    longer local-only, are read off the partition data. *)
Definition update_from_cluster (topic : Topic) : M Topic :=
  confluent_topic ← _get_client_topic (name topic) Confluent;
  pykafka_topic ← _get_client_topic (name topic) PyKafka;
  call (EarliestAvailableOffsets (name topic));;
  let low_watermarks := earliest_available_offsets pykafka_topic in
  call (LatestAvailableOffsets (name topic));;
  let high_watermarks := latest_available_offsets pykafka_topic in
  data ← _get_partition_data confluent_topic low_watermarks high_watermarks topic;
  call (RetrieveConfig (name topic));;
  cfg ← lift (retrieve_config cluster (name topic));
  mret {| name := name topic;
          num_partitions := cluster_num_partitions data;
          replication_factor := cluster_replication_factor data;
          config := cfg; partition_data := data; is_only_local := false |}.

Definition get_cluster_topic (topic_name : string) : M Topic :=
  update_from_cluster (new_Topic topic_name).

Definition get_local_topic (topic_name : string) : M Topic :=
  mret (new_Topic topic_name).

(** The names that [list_topics] keeps, in the order in which it maps
    them to topics. *)
Definition listed_names (search_string : option string)
    (sort hide_internal : bool) : list string :=
  let topic_names := cluster_topics cluster in
  let topic_names :=
    match search_string with
    | Some pattern =>
        if decide (pattern = "") then topic_names
        else filter (λ topic, re_match pattern topic = true) topic_names
    | None => topic_names
    end in
  let topic_names :=
    if hide_internal
    then filter (λ topic, String.prefix "__" topic = false) topic_names
    else topic_names in
  if sort then merge_sort String.le topic_names else topic_names.

Definition list_topics (search_string : option string)
    (sort hide_internal get_topic_objects : bool) : M (list Topic) :=
  call (ClientPoll 1);;
  call (ListTopics None None);;
  let topic_names := listed_names search_string sort hide_internal in
  if get_topic_objects then mapM get_cluster_topic topic_names
  else mapM get_local_topic topic_names.

Definition new_topic_of (topic : Topic) : NewTopic :=
  let partitions :=
    match num_partitions topic with
    | Some n => n
    | None => default_num_partitions controller_config
    end in
  let replicas :=
    match replication_factor topic with
    | Some n => n
    | None => default_replication_factor controller_config
    end in
  {| nt_name := name topic; nt_num_partitions := partitions;
     nt_replication_factor := replicas; nt_config := config topic |}.

Definition create_topics (topics : list Topic) : M unit :=
  invalidate_cache_after
    (forM_ (λ topic,
         let new_topic := new_topic_of topic in
         call (CreateTopics new_topic 60);;
         ensure_kafka_future_done (create_topics_future cluster new_topic))
       topics).

Definition alter_configs (topics : list Topic) : M unit :=
  invalidate_cache_after
    (forM_ (λ topic,
         call (AlterConfigs (name topic) (config topic));;
         ensure_kafka_future_done
           (alter_configs_future cluster (name topic) (config topic)))
       topics).

Definition delete_topic (topic : Topic) : M unit :=
  invalidate_cache_after
    (call (DeleteTopics (name topic));;
     ensure_kafka_future_done (delete_topics_future cluster (name topic))).

(** The [for] loop over the consumers: each is polled until its own loop
    stops; the offsets are shared by all of them. *)
Fixpoint scan_consumers (timestamp_limit : Z) (consumers : list (Z * consumer))
    (offsets : gmap Z Z) : M (gmap Z Z) :=
  match consumers with
  | [] => mret offsets
  | (partition, c) :: rest =>
      s ← poll_partition timestamp_limit partition
            {| scan_consumer := c; max_retry_count := 5;
               keep_polling_current_partition := true;
               partition_offsets := offsets |};
      scan_consumers timestamp_limit rest (partition_offsets s)
  end.

(** The consumer group id (topic name and clock) and the fixed arguments of
    the consumer factory only label the consumers and are left out. *)
Definition get_offsets_closest_to_timestamp (topic_name : string)
    (timestamp_limit : Z) : M (gmap Z Z) :=
  topic ← get_cluster_topic topic_name;
  let offsets : gmap Z Z :=
    list_to_map ((λ p, (partition_id p, 0)) <$> partitions topic) in
  let keys := keys_in_order (partition_id <$> partitions topic) in
  consumers ← mapM (λ partition,
                 call (AssignSpecificPartitions topic_name partition);;
                 mret (partition, deliveries cluster topic_name partition))
               keys;
  scan_consumers timestamp_limit consumers offsets.

Definition diff_with_cluster (local_topic : Topic)
    : M (gmap string (value * value)) :=
  assert_ (is_only_local local_topic) "Can only diff local topics with remote";;
  cluster_topic ← get_cluster_topic (name local_topic);
  let diffs : gmap string (value * value) := ∅ in
  let diffs :=
    set_diff "num_partitions" (of_int (num_partitions cluster_topic))
             (of_int (num_partitions local_topic)) diffs in
  let diffs :=
    set_diff "replication_factor" (of_int (replication_factor cluster_topic))
             (of_int (replication_factor local_topic)) diffs in
  mret (foldl (λ diffs item,
                 set_diff item.1 (VStr item.2)
                          (of_str (config local_topic !! item.1)) diffs)
              diffs (map_to_list (config cluster_topic))).

End TopicController.

(** ** What a scan consumes *)

(** The answers the loop of one partition takes from a consumer whose
    retry budget is [n]: everything up to the signal that stops it. *)
Fixpoint polled (n : Z) (c : consumer) : list poll :=
  match c with
  | [] => []
  | Delivered m :: c' => Delivered m :: polled n c'
  | MessageEmptyException :: c' =>
      MessageEmptyException ::
        (if bool_decide (n - 1 <= 0) then [] else polled (n - 1) c')
  | EndOfPartitionReachedException :: _ => [EndOfPartitionReachedException]
  | ConsumerFailure e :: _ => [ConsumerFailure e]
  end.

(** The timeouts the loop runs into after the consumer has been used up. *)
Fixpoint quiet_timeouts (n : Z) (c : consumer) : nat :=
  match c with
  | [] => Z.to_nat n
  | Delivered _ :: c' => quiet_timeouts n c'
  | MessageEmptyException :: c' =>
      if bool_decide (n - 1 <= 0) then 0%nat else quiet_timeouts (n - 1) c'
  | _ => 0%nat
  end.

Fixpoint failure (l : list poll) : option exn :=
  match l with
  | [] => None
  | ConsumerFailure e :: _ => Some e
  | _ :: l' => failure l'
  end.

Fixpoint messages (l : list poll) : list Message :=
  match l with
  | [] => []
  | Delivered m :: l' => m :: messages l'
  | _ :: l' => messages l'
  end.

Fixpoint timeouts (l : list poll) : nat :=
  match l with
  | [] => 0%nat
  | MessageEmptyException :: l' => S (timeouts l')
  | _ :: l' => timeouts l'
  end.

Definition message_or_timeout (a : poll) : bool :=
  match a with
  | Delivered _ | MessageEmptyException => true
  | _ => false
  end.

Definition no_failure (a : poll) : bool :=
  match a with
  | ConsumerFailure _ => false
  | _ => true
  end.

(** The messages consumed by a whole resolver run, in the order of the
    scan: partition after partition, in the order of the keys. *)
Definition consumed (cluster : Cluster) (topic_name : string) (keys : list Z)
    : list Message :=
  concat ((λ p, messages (polled 5 (deliveries cluster topic_name p))) <$> keys).

(** The offset that results for partition [p] from the messages [ms] when
    [earlier] decides which of them are before the target: one past the
    last such message of the partition, and 0 when there is none. *)
Definition closest_offset (earlier : Message -> Z -> bool) (timestamp_limit : Z)
    (ms : list Message) (p : Z) : Z :=
  match last (filter (λ m, msg_partition m = p ∧ earlier m timestamp_limit = true) ms) with
  | Some m => msg_offset m + 1
  | None => 0
  end.

(** The comparison on the timestamp itself, in milliseconds, without
    cutting it to seconds. *)
Definition strictly_earlier (m : Message) (timestamp_limit : Z) : bool :=
  bool_decide (msg_timestamp m * 1000 < timestamp_limit).

Definition record_offset (timestamp_limit : Z) (offsets : gmap Z Z) (m : Message)
    : gmap Z Z :=
  if earlier_than m timestamp_limit
  then <[msg_partition m := msg_offset m + 1]> offsets
  else offsets.

Definition start_scan (c : consumer) (n : Z) (offsets : gmap Z Z) : scan :=
  {| scan_consumer := c; max_retry_count := n;
     keep_polling_current_partition := true; partition_offsets := offsets |}.

Definition poll_event (p : Z) : event := ConsumeSingleMessage p 10.

(** ** What a snapshot consumes *)

(** The targeted reads of [_get_partition_data]: for each partition whose
    high watermark is above the low one, the record just below the high
    watermark. *)
Definition consume_requests (topic_name : string) (low_watermarks high_watermarks : gmap Z Z)
    (items : list (Z * PartitionMetadata)) : list event :=
  items ≫= λ item,
    match low_watermarks !! item.1, high_watermarks !! item.1 with
    | Some low, Some high =>
        if bool_decide (high > low) then [Consume topic_name (high - 1) item.1]
        else []
    | _, _ => []
    end.

(** The snapshot of one partition as it has to come out. *)
Definition snapshot_of (cluster : Cluster) (topic_name : string)
    (low_watermarks high_watermarks : gmap Z Z)
    (item : Z * PartitionMetadata) (part : Partition) : Prop :=
  partition_id part = item.1 ∧
  low_watermarks !! item.1 = Some (low_watermark part) ∧
  high_watermarks !! item.1 = Some (high_watermark part) ∧
  if bool_decide (high_watermark part > low_watermark part)
  then ∃ m, log cluster topic_name item.1 (high_watermark part - 1) = Ok m ∧
            latest_message_timestamp part = Some (msg_timestamp m # 1000)%Q
  else latest_message_timestamp part = None.

(** The three mutating operations. *)
Inductive mutation :=
| CreateTopicsOf (topics : list Topic)
| AlterConfigsOf (topics : list Topic)
| DeleteTopicOf (topic : Topic).

Definition mutate (cluster : Cluster) (controller_config : Config) (m : mutation)
    : M unit :=
  match m with
  | CreateTopicsOf topics => create_topics cluster controller_config topics
  | AlterConfigsOf topics => alter_configs cluster topics
  | DeleteTopicOf topic => delete_topic cluster topic
  end.

(** The futures a mutating operation waits for, one per request, in the
    order of the requests. *)
Definition futures_of (cluster : Cluster) (controller_config : Config) (m : mutation)
    : list future :=
  match m with
  | CreateTopicsOf topics =>
      (λ topic, create_topics_future cluster (new_topic_of controller_config topic))
        <$> topics
  | AlterConfigsOf topics =>
      (λ topic, alter_configs_future cluster (name topic) (config topic)) <$> topics
  | DeleteTopicOf topic => [delete_topics_future cluster (name topic)]
  end.

(** The exception of the first future that did not complete well. *)
Fixpoint first_failure (futures : list future) : option exn :=
  match futures with
  | [] => None
  | Done :: rest => first_failure rest
  | Failed code :: _ => Some (AdminOperationFailedError code)
  | Pending :: _ => Some CompletionTimeoutError
  end.

(** The topics whose request is sent: all up to the first whose future
    does not complete well, that one included. *)
Fixpoint submitted {A} (future_of : A -> future) (topics : list A) : list A :=
  match topics with
  | [] => []
  | topic :: rest =>
      match future_of topic with
      | Done => topic :: submitted future_of rest
      | _ => [topic]
      end
  end.

(** The topic an event is about. *)
Definition event_topic (e : event) : option string :=
  match e with
  | ListTopics topic _ => topic
  | EarliestAvailableOffsets topic | LatestAvailableOffsets topic
  | Consume topic _ _ | RetrieveConfig topic | AlterConfigs topic _
  | DeleteTopics topic | AssignSpecificPartitions topic _ => Some topic
  | CreateTopics t _ => Some (nt_name t)
  | ClientPoll _ | ConsumeSingleMessage _ _ | InvalidateCache => None
  end.

(** The two fixed fields of a diff. *)
Definition count_diffs (cluster_topic local_topic : Topic) : gmap string (value * value) :=
  set_diff "replication_factor" (of_int (replication_factor cluster_topic))
           (of_int (replication_factor local_topic))
    (set_diff "num_partitions" (of_int (num_partitions cluster_topic))
              (of_int (num_partitions local_topic)) ∅).


(** ** Well-behaved consumers and logs *)

(** A consumer assigned to partition [p] that delivers messages of that
    partition only. *)
Definition own_partition_only (p : Z) (c : consumer) : bool :=
  forallb (λ a, match a with
                | Delivered m => bool_decide (msg_partition m = p)
                | _ => true
                end) c.

(** Messages in log order: offsets from 0 on, strictly increasing. *)
Fixpoint ascending_offsets (floor : Z) (ms : list Message) : bool :=
  match ms with
  | [] => true
  | m :: ms' => bool_decide (floor <= msg_offset m) && ascending_offsets (msg_offset m + 1) ms'
  end.

(** What one partition snapshot needs from the cluster: both watermarks,
    and the record below the high watermark when there is one. *)
Definition snapshot_available (cluster : Cluster) (topic_name : string)
    (low_watermarks high_watermarks : gmap Z Z) (item : Z * PartitionMetadata) : Prop :=
  ∃ low high,
    low_watermarks !! item.1 = Some low ∧ high_watermarks !! item.1 = Some high ∧
    (high > low -> ∃ m, log cluster topic_name item.1 (high - 1) = Ok m).

(** The number of polls the scan of one consumer makes. *)
Definition polls (c : consumer) : nat :=
  (length (polled 5 c) + quiet_timeouts 5 c)%nat.

(** A local declaration with another configuration mapping. *)
Definition with_config (topic : Topic) (cfg : gmap string string) : Topic :=
  {| name := name topic; num_partitions := num_partitions topic;
     replication_factor := replication_factor topic; config := cfg;
     partition_data := partition_data topic; is_only_local := is_only_local topic |}.

(** A consumer that delivers no message and raises nothing but the two
    signals. *)
Definition silent (c : consumer) : bool :=
  forallb (λ a, match a with
                | MessageEmptyException | EndOfPartitionReachedException => true
                | _ => false
                end) c.

(** How often partition [p] is polled in a trace. *)
Definition is_poll_of (p : Z) (e : event) : bool :=
  match e with
  | ConsumeSingleMessage q _ => bool_decide (q = p)
  | _ => false
  end.

Definition polls_of (p : Z) (calls : list event) : nat :=
  length (filter (λ e, is_poll_of p e = true) calls).

(** ** A small cluster to run the controller on *)

Definition example_metadata : PartitionMetadata :=
  {| isrs := [1]; leader := 1; replicas := [1] |}.

Definition example_message (p o ts : Z) : Message :=
  {| msg_partition := p; msg_offset := o; msg_timestamp := ts |}.

(** One topic, ["orders"], with two partitions: partition 0 holds two
    records, partition 1 is empty.  Every other name is unknown to the
    cluster (error code 3). *)
Definition example_cluster : Cluster :=
  {| cluster_topics := ["orders"; "__consumer_offsets"; "audit"];
     list_topics_of := λ topic_name,
       if decide (topic_name = "orders")
       then {| ct_topic := topic_name; ct_error := None;
               ct_partitions := [(0, example_metadata); (1, example_metadata)] |}
       else {| ct_topic := topic_name; ct_error := Some 3; ct_partitions := [] |};
     pykafka_topics :=
       {[ "orders" := {| earliest_available_offsets := {[ 0 := 0; 1 := 0 ]};
                         latest_available_offsets := {[ 0 := 2; 1 := 0 ]} |} ]};
     log := λ _ p o, Ok (example_message p o (1500 + 1000 * o));
     retrieve_config := λ _, Ok {[ "cleanup.policy" := "delete" ]};
     create_topics_future := λ t, if decide (nt_name t = "broken") then Failed 36 else Done;
     alter_configs_future := λ topic_name _,
       if decide (topic_name = "broken") then Pending else Done;
     delete_topics_future := λ topic_name,
       if decide (topic_name = "broken") then Failed 3 else Done;
     deliveries := λ _ p,
       if decide (p = 0)
       then [Delivered (example_message 0 0 1500); MessageEmptyException;
             Delivered (example_message 0 1 2500);
             EndOfPartitionReachedException]
       else [] |}.

(** The same cluster, except that the consumer of partition 1 breaks after
    one message, and that the names are listed in another order. *)
Definition failing_cluster : Cluster :=
  {| cluster_topics := ["audit"; "orders"; "__consumer_offsets"];
     list_topics_of := list_topics_of example_cluster;
     pykafka_topics := pykafka_topics example_cluster;
     log := log example_cluster;
     retrieve_config := retrieve_config example_cluster;
     create_topics_future := create_topics_future example_cluster;
     alter_configs_future := alter_configs_future example_cluster;
     delete_topics_future := delete_topics_future example_cluster;
     deliveries := λ topic_name p,
       if decide (p = 1)
       then [Delivered (example_message 1 0 500); ConsumerFailure (KafkaException 7);
             EndOfPartitionReachedException]
       else deliveries example_cluster topic_name p |}.

(** The same cluster with consumers that deliver nothing. *)
Definition silent_cluster : Cluster :=
  {| cluster_topics := cluster_topics example_cluster;
     list_topics_of := list_topics_of example_cluster;
     pykafka_topics := pykafka_topics example_cluster;
     log := log example_cluster;
     retrieve_config := retrieve_config example_cluster;
     create_topics_future := create_topics_future example_cluster;
     alter_configs_future := alter_configs_future example_cluster;
     delete_topics_future := delete_topics_future example_cluster;
     deliveries := λ _ p,
       if decide (p = 0)
       then [MessageEmptyException; EndOfPartitionReachedException]
       else [] |}.

(** The same cluster with a flaky first partition: its timeouts come
    between messages, and more messages would follow the fifth timeout.
    The second partition only times out, more often than the budget
    allows. *)
Definition flaky_cluster : Cluster :=
  {| cluster_topics := cluster_topics example_cluster;
     list_topics_of := list_topics_of example_cluster;
     pykafka_topics := pykafka_topics example_cluster;
     log := log example_cluster;
     retrieve_config := retrieve_config example_cluster;
     create_topics_future := create_topics_future example_cluster;
     alter_configs_future := alter_configs_future example_cluster;
     delete_topics_future := delete_topics_future example_cluster;
     deliveries := λ _ p,
       if decide (p = 0)
       then [MessageEmptyException; Delivered (example_message 0 0 1000);
             MessageEmptyException; MessageEmptyException;
             Delivered (example_message 0 1 2000); MessageEmptyException]
            ++ MessageEmptyException
            :: [Delivered (example_message 0 2 3000); EndOfPartitionReachedException]
       else replicate 7 MessageEmptyException |}.

Definition example_config : Config :=
  {| default_num_partitions := 1; default_replication_factor := 1 |}.

(** * Properties *)

(** ** The monad *)

Lemma bind_Ok {A B} (t : list event) (a : A) (f : A -> M B) :
  ((t, Ok a) : M A) ≫= f = ((t ++ (f a).1, (f a).2) : M B).
Proof. unfold mbind, M_bind. by destruct (f a). Qed.

Lemma bind_Raise {A B} (t : list event) (e : exn) (f : A -> M B) :
  ((t, Raise e) : M A) ≫= f = ((t, Raise e) : M B).
Proof. reflexivity. Qed.

Ltac run_M :=
  unfold mbind, M_bind, mret, M_ret, call, raise, lift; cbn;
  rewrite ?app_nil_r.

Lemma mapM_call {A B} (ev : A -> event) (g : A -> B) (l : list A) :
  mapM (λ x, call (ev x);; mret (g x)) l = (ev <$> l, Ok (g <$> l)).
Proof.
  induction l as [|x l IH]; [done|].
  cbn [mapM]. rewrite IH. by run_M.
Qed.

(** ** The loop over one partition *)

Lemma poll_partition_step limit p s :
  poll_partition limit p s =
    if keep_polling_current_partition s then
      match poll_once limit s with
      | Ok s' =>
          let '(t, r) := poll_partition limit p s' in
          (poll_event p :: t, r)
      | Raise e => ([poll_event p], Raise e)
      end
    else ([], Ok s).
Proof.
  funelim (poll_partition limit p s).
  - by rewrite e.
  - rewrite Hkeep, Hbody. unfold mbind, M_bind, call.
    by destruct (poll_partition _ _ s').
  - by rewrite Hkeep, e1.
Qed.

(** A consumer that delivers nothing: [n] timeouts, then the loop stops. *)
Lemma poll_partition_quiet limit p (k : nat) offs :
  poll_partition limit p (start_scan [] (Z.of_nat (S k)) offs) =
    (replicate (S k) (poll_event p),
     Ok {| scan_consumer := []; max_retry_count := 0;
           keep_polling_current_partition := false;
           partition_offsets := offs |}).
Proof.
  induction k as [|k IH].
  - rewrite poll_partition_step. simpl.
    rewrite poll_partition_step. reflexivity.
  - rewrite poll_partition_step.
    cbn [start_scan keep_polling_current_partition poll_once scan_consumer
         consume_single_message max_retry_count partition_offsets].
    rewrite bool_decide_eq_false_2 by lia.
    replace (Z.of_nat (S (S k)) - 1) with (Z.of_nat (S k)) by lia.
    fold (start_scan [] (Z.of_nat (S k)) offs). rewrite IH. reflexivity.
Qed.

Lemma poll_partition_run limit p c n offs :
  1 ≤ n ->
  ∃ r, poll_partition limit p (start_scan c n offs) =
         (replicate (length (polled n c) + quiet_timeouts n c) (poll_event p), r) ∧
       match failure (polled n c) with
       | Some e => r = Raise e
       | None =>
           ∃ s, r = Ok s ∧
                scan_consumer s = drop (length (polled n c)) c ∧
                keep_polling_current_partition s = false ∧
                partition_offsets s =
                  foldl (record_offset limit) offs (messages (polled n c))
       end.
Proof.
  revert n offs. induction c as [|a c IH]; intros n offs Hn.
  - assert (n = Z.of_nat (S (Z.to_nat (n - 1)))) as -> by lia.
    rewrite poll_partition_quiet. cbn [polled quiet_timeouts length].
    rewrite Nat2Z.id.
    eexists; split; [reflexivity|]. eexists; split; [reflexivity|]. done.
  - rewrite poll_partition_step. destruct a as [m| | |e].
    + cbn [start_scan keep_polling_current_partition poll_once scan_consumer
           consume_single_message max_retry_count partition_offsets].
      fold (record_offset limit offs m).
      fold (start_scan c n (record_offset limit offs m)).
      destruct (IH n (record_offset limit offs m) Hn) as (r & -> & Hr).
      eexists; split; [reflexivity|]. exact Hr.
    + cbn [start_scan keep_polling_current_partition poll_once scan_consumer
           consume_single_message max_retry_count partition_offsets polled
           quiet_timeouts].
      case_bool_decide as Hle.
      * rewrite poll_partition_step. simpl.
        eexists; split; [reflexivity|]. eexists; split; [reflexivity|]. done.
      * fold (start_scan c (n - 1) offs).
        destruct (IH (n - 1) offs ltac:(lia)) as (r & -> & Hr).
        eexists; split; [reflexivity|]. exact Hr.
    + simpl. rewrite poll_partition_step. simpl.
      eexists; split; [reflexivity|]. eexists; split; [reflexivity|]. done.
    + simpl. eexists; split; [reflexivity|]. done.
Qed.

Lemma record_offsets_lookup limit (ms : list Message) (offs : gmap Z Z) (p : Z) :
  foldl (record_offset limit) offs ms !! p =
    match last (filter (λ m, msg_partition m = p ∧ earlier_than m limit = true) ms) with
    | Some m => Some (msg_offset m + 1)
    | None => offs !! p
    end.
Proof.
  induction ms as [|m ms IH] using rev_ind; [done|].
  rewrite foldl_app, filter_app. cbn [foldl].
  unfold record_offset at 1.
  destruct (earlier_than m limit) eqn:Hm.
  - destruct (decide (msg_partition m = p)) as [Hp|Hp].
    + rewrite Hp, lookup_insert_eq.
      rewrite (filter_cons_True _ m) by (split; done).
      rewrite filter_nil. by rewrite last_snoc.
    + rewrite lookup_insert_ne by done.
      rewrite (filter_cons_False _ m) by (intros [? _]; done).
      rewrite filter_nil. by rewrite app_nil_r.
  - rewrite (filter_cons_False _ m) by (intros [_ ?]; congruence).
    rewrite filter_nil. by rewrite app_nil_r.
Qed.

Lemma scan_consumers_run limit (cs : list (Z * consumer)) (offs : gmap Z Z) :
  Forall (λ pc, failure (polled 5 pc.2) = None) cs ->
  scan_consumers limit cs offs =
    (concat ((λ pc, replicate (length (polled 5 pc.2) + quiet_timeouts 5 pc.2)
                              (poll_event pc.1)) <$> cs),
     Ok (foldl (record_offset limit) offs
               (concat ((λ pc, messages (polled 5 pc.2)) <$> cs)))).
Proof.
  intros Hcs. revert offs. induction Hcs as [|[p c] cs Hc _ IH]; intros offs; [done|].
  cbn [scan_consumers fmap list_fmap concat].
  fold (start_scan c 5 offs).
  destruct (poll_partition_run limit p c 5 offs ltac:(lia)) as (r & -> & Hr).
  simpl in Hc. rewrite Hc in Hr. destruct Hr as (s & -> & _ & _ & Hs).
  rewrite bind_Ok, Hs, IH. cbn [fst snd].
  by rewrite foldl_app.
Qed.

Lemma initial_offsets_lookup (ps : list Partition) (k : Z) :
  k ∈ partition_id <$> ps ->
  (list_to_map ((λ p, (partition_id p, 0)) <$> ps) : gmap Z Z) !! k = Some 0.
Proof.
  induction ps as [|p ps IH].
  - by intros ?%elem_of_nil.
  - rewrite !fmap_cons, list_to_map_cons. intros Hk.
    destruct (decide (partition_id p = k)) as [->|Hne].
    + apply lookup_insert_eq.
    + rewrite lookup_insert_ne by done. apply IH.
      apply elem_of_cons in Hk as [?|?]; [congruence|done].
Qed.

Lemma polled_until_end n (ms : list Message) (rest : consumer) :
  polled n ((Delivered <$> ms) ++ EndOfPartitionReachedException :: rest) =
    (Delivered <$> ms) ++ [EndOfPartitionReachedException].
Proof. induction ms as [|m ms IH]; [done|]. cbn. by rewrite IH. Qed.

Lemma get_offsets_run cluster topic_name limit t topic :
  get_cluster_topic cluster topic_name = (t, Ok topic) ->
  let keys := keys_in_order (partition_id <$> partitions topic) in
  Forall (λ p, failure (polled 5 (deliveries cluster topic_name p)) = None) keys ->
  ∃ t',
    get_offsets_closest_to_timestamp cluster topic_name limit =
      (t',
       Ok (foldl (record_offset limit)
                 (list_to_map ((λ p, (partition_id p, 0)) <$> partitions topic))
                 (consumed cluster topic_name keys))).
Proof.
  intros Htopic keys Hkeys.
  unfold get_offsets_closest_to_timestamp. rewrite Htopic, bind_Ok.
  cbn [fst snd]. fold keys. rewrite mapM_call, bind_Ok. cbn [fst snd].
  rewrite scan_consumers_run by (by apply Forall_fmap).
  cbn [fst snd]. rewrite <- !list_fmap_compose. eexists. reflexivity.
Qed.

(** C1 (amended).  Once the topic snapshot has been fetched and no consumer
    fails with an exception of its own, the resolver returns, and for every
    partition of the topic the returned offset is one past the last message
    consumed for that partition whose timestamp, cut to whole seconds, is
    strictly earlier than the target instant, and 0 when there is no such
    message.  The messages consumed are all those delivered before the stop
    signal of their consumer, whatever their timestamps: a message at or
    after the target does not end the scan. *)
Theorem closest_offsets_by_truncated_timestamp cluster topic_name limit t topic :
  get_cluster_topic cluster topic_name = (t, Ok topic) ->
  let keys := keys_in_order (partition_id <$> partitions topic) in
  Forall (λ p, failure (polled 5 (deliveries cluster topic_name p)) = None) keys ->
  (∃ t' offsets,
     get_offsets_closest_to_timestamp cluster topic_name limit = (t', Ok offsets) ∧
     ∀ part, part ∈ partitions topic ->
       offsets !! partition_id part =
         Some (closest_offset earlier_than limit
                 (consumed cluster topic_name keys) (partition_id part))) ∧
  (∀ n ms rest,
     messages (polled n ((Delivered <$> ms) ++ EndOfPartitionReachedException :: rest))
       = ms).
Proof.
  intros Htopic keys Hkeys. split.
  - destruct (get_offsets_run cluster topic_name limit t topic Htopic Hkeys)
      as (t' & Hrun).
    eexists _, _. split; [exact Hrun|].
    intros part Hpart. rewrite record_offsets_lookup. unfold closest_offset.
    destruct (last _); [done|].
    apply initial_offsets_lookup, list_elem_of_fmap. by exists part.
  - intros n ms rest. rewrite polled_until_end.
    induction ms as [|m ms IH]; [done|]. cbn. by rewrite IH.
Qed.

Lemma closest_offsets_by_truncated_timestamp_witness :
  ∃ t topic,
    get_cluster_topic example_cluster "orders" = (t, Ok topic) ∧
    ∃ t' offsets,
      get_offsets_closest_to_timestamp example_cluster "orders" 1200000
        = (t', Ok offsets) ∧
      ∀ part, part ∈ partitions topic ->
        offsets !! partition_id part =
          Some (closest_offset earlier_than 1200000
                  (consumed example_cluster "orders"
                     (keys_in_order (partition_id <$> partitions topic)))
                  (partition_id part)).
Proof.
  eexists _, _. split; [vm_compute; reflexivity|].
  eapply (closest_offsets_by_truncated_timestamp example_cluster "orders" 1200000).
  - vm_compute. reflexivity.
  - vm_compute. repeat constructor.
Defined.

(** The resolver on the example: the record of partition 0 stamped 1500 ms
    is counted as earlier than the target 1.2 s. *)
Example example_offsets :
  outcome (get_offsets_closest_to_timestamp example_cluster "orders" 1200000)
    = Ok {[ 0 := 1; 1 := 0 ]}.
Proof. vm_compute. reflexivity. Qed.

(** C1 as stated, with the comparison made on the timestamp itself, does
    not hold: a record stamped 1500 ms is not strictly earlier than the
    target 1200 ms, yet the resolver returns its offset + 1. *)
Lemma strictly_earlier_offsets_refuted :
  ¬ (∀ cluster topic_name limit t topic t' offsets part,
       get_cluster_topic cluster topic_name = (t, Ok topic) ->
       get_offsets_closest_to_timestamp cluster topic_name limit = (t', Ok offsets) ->
       part ∈ partitions topic ->
       offsets !! partition_id part =
         Some (closest_offset strictly_earlier limit
                 (consumed cluster topic_name
                    (keys_in_order (partition_id <$> partitions topic)))
                 (partition_id part))).
Proof.
  intros H.
  destruct (get_cluster_topic example_cluster "orders") as [t [topic|e]] eqn:Htopic;
    [|by vm_compute in Htopic].
  destruct (get_offsets_closest_to_timestamp example_cluster "orders" 1200000)
    as [t' [offsets|e]] eqn:Hrun; [|by vm_compute in Hrun].
  specialize (H example_cluster "orders" 1200000 t topic t' offsets).
  vm_compute in Htopic, Hrun.
  injection Htopic as <- <-. injection Hrun as <- <-.
  specialize (H _ eq_refl eq_refl (list_elem_of_here _ _)).
  vm_compute in H. discriminate H.
Qed.


Example example_offsets_as_stated :
  closest_offset strictly_earlier 1200000
    (consumed example_cluster "orders" [0; 1]) 0 = 0.
Proof. vm_compute. reflexivity. Qed.

(** ** The retry budget *)

Ltac step_scan :=
  rewrite poll_partition_step;
  cbn [start_scan keep_polling_current_partition poll_once scan_consumer
       consume_single_message max_retry_count partition_offsets app].

Lemma no_failure_polled n (c : consumer) :
  forallb no_failure c = true -> failure (polled n c) = None.
Proof.
  revert n. induction c as [|[m| | |e] c IH]; intros n; cbn; try done.
  - intros Hc. by apply IH.
  - intros Hc. case_bool_decide; [done|]. by apply IH.
Qed.

Lemma poll_partition_timeouts limit p (k : nat) n offs :
  1 ≤ n ->
  poll_partition limit p (start_scan (replicate k MessageEmptyException) n offs) =
    (replicate (Z.to_nat n) (poll_event p),
     Ok {| scan_consumer := replicate (k - Z.to_nat n) MessageEmptyException;
           max_retry_count := 0;
           keep_polling_current_partition := false;
           partition_offsets := offs |}).
Proof.
  revert n. induction k as [|k IH]; intros n Hn.
  - assert (n = Z.of_nat (S (Z.to_nat (n - 1)))) as Hk by lia.
    rewrite Hk at 1. rewrite poll_partition_quiet.
    replace (Z.to_nat n) with (S (Z.to_nat (n - 1))) by lia. reflexivity.
  - cbn [replicate]. step_scan. case_bool_decide as Hle.
    + assert (n = 1) as -> by lia. rewrite poll_partition_step.
      cbn. change (Z.to_nat 1) with 1%nat. change (1 - 1) with 0.
      cbn. by rewrite Nat.sub_0_r.
    + fold (start_scan (replicate k MessageEmptyException) (n - 1) offs).
      rewrite IH by lia.
      replace (Z.to_nat n) with (S (Z.to_nat (n - 1))) by lia. reflexivity.
Qed.

Lemma poll_partition_budget limit p (pre rest : consumer) n offs :
  1 ≤ n ->
  forallb message_or_timeout pre = true ->
  Z.of_nat (timeouts pre) = n - 1 ->
  poll_partition limit p
      (start_scan (pre ++ MessageEmptyException :: rest) n offs) =
    (replicate (S (length pre)) (poll_event p),
     Ok {| scan_consumer := rest; max_retry_count := 0;
           keep_polling_current_partition := false;
           partition_offsets :=
             foldl (record_offset limit) offs (messages pre) |}).
Proof.
  revert n offs. induction pre as [|[m| | |e] pre IH]; intros n offs Hn Hpre Hcount;
    cbn in Hpre, Hcount; try done.
  - assert (n = 1) as -> by lia. step_scan. rewrite poll_partition_step.
    reflexivity.
  - step_scan. fold (record_offset limit offs m).
    fold (start_scan (pre ++ MessageEmptyException :: rest) n
            (record_offset limit offs m)).
    by rewrite IH.
  - step_scan. rewrite bool_decide_eq_false_2 by lia.
    fold (start_scan (pre ++ MessageEmptyException :: rest) (n - 1) offs).
    rewrite IH by (done || lia). reflexivity.
Qed.

(** The loop of one partition and the two signals.  Once the topic snapshot
    has been fetched and no consumer fails with an exception of its own,
    the call returns a mapping.  A consumer that only times out is polled
    five times and its scan then stops without an exception, with the
    offsets untouched; the end of the partition stops the scan at once. *)
Lemma scan_stops_without_exception cluster topic_name limit t topic :
  get_cluster_topic cluster topic_name = (t, Ok topic) ->
  (∀ p, forallb no_failure (deliveries cluster topic_name p) = true) ->
  (∃ t' offsets,
     get_offsets_closest_to_timestamp cluster topic_name limit = (t', Ok offsets)) ∧
  (∀ p (k : nat) offs,
     poll_partition limit p (start_scan (replicate k MessageEmptyException) 5 offs) =
       (replicate 5 (poll_event p),
        Ok {| scan_consumer := replicate (k - 5) MessageEmptyException;
              max_retry_count := 0;
              keep_polling_current_partition := false;
              partition_offsets := offs |})) ∧
  (∀ p rest offs,
     poll_partition limit p
         (start_scan (EndOfPartitionReachedException :: rest) 5 offs) =
       ([poll_event p],
        Ok {| scan_consumer := rest; max_retry_count := 5;
              keep_polling_current_partition := false;
              partition_offsets := offs |})).
Proof.
  intros Htopic Hquiet. split; [|split].
  - destruct (get_offsets_run cluster topic_name limit t topic Htopic) as (t' & Hrun).
    + apply Forall_forall. intros p _. apply no_failure_polled, Hquiet.
    + eauto.
  - intros p k offs. by rewrite poll_partition_timeouts.
  - intros p rest offs. step_scan. rewrite poll_partition_step. reflexivity.
Qed.


(** The loop of one partition and its budget.  A consumed message leaves
    the budget as it is and a timeout takes one from it; when the answers of
    a consumer are messages and timeouts in any order, the loop stops
    exactly at the fifth timeout. *)
Lemma scan_stops_at_fifth_timeout limit p (pre rest : consumer) offs :
  forallb message_or_timeout pre = true ->
  timeouts pre = 4%nat ->
  poll_partition limit p
      (start_scan (pre ++ MessageEmptyException :: rest) 5 offs) =
    (replicate (S (length pre)) (poll_event p),
     Ok {| scan_consumer := rest; max_retry_count := 0;
           keep_polling_current_partition := false;
           partition_offsets :=
             foldl (record_offset limit) offs (messages pre) |}) ∧
  (∀ s m c, scan_consumer s = Delivered m :: c ->
     ∃ s', poll_once limit s = Ok s' ∧ max_retry_count s' = max_retry_count s) ∧
  (∀ s c, scan_consumer s = MessageEmptyException :: c ->
     ∃ s', poll_once limit s = Ok s' ∧ max_retry_count s' = max_retry_count s - 1).
Proof.
  intros Hpre Hcount. split; [|split].
  - apply poll_partition_budget; [lia|done|lia].
  - intros s m c Hs. unfold poll_once. rewrite Hs. cbn. eauto.
  - intros s c Hs. unfold poll_once. rewrite Hs. cbn. eauto.
Qed.


(** ** The snapshot builder *)

Lemma consume_requests_cons topic_name low high item items :
  consume_requests topic_name low high (item :: items) =
    consume_requests topic_name low high [item] ++
    consume_requests topic_name low high items.
Proof. unfold consume_requests. cbn [mbind list_bind]. by rewrite app_nil_r. Qed.

Lemma partition_snapshot_run cluster low high topic (item : Z * PartitionMetadata) lo hi :
  low !! item.1 = Some lo ->
  high !! item.1 = Some hi ->
  (hi > lo -> ∃ m, log cluster (name topic) item.1 (hi - 1) = Ok m) ->
  ∃ part,
    partition_snapshot cluster low high topic item =
      (consume_requests (name topic) low high [item], Ok part) ∧
    snapshot_of cluster (name topic) low high item part.
Proof.
  destruct item as [pid meta]. cbn [fst]. intros Hlo Hhi Hlog.
  unfold partition_snapshot, consume_requests, snapshot_of, getitem.
  cbn [mbind list_bind fst]. rewrite Hlo, Hhi. run_M.
  case_bool_decide as Hcmp.
  - destruct (Hlog Hcmp) as [m Hm]. rewrite Hm. run_M.
    eexists; split; [reflexivity|]. cbn.
    rewrite bool_decide_eq_true_2 by done. eauto 6.
  - run_M. eexists; split; [reflexivity|]. cbn.
    rewrite bool_decide_eq_false_2 by done. eauto.
Qed.

(** C3.  When the watermarks of every partition named by the admin metadata
    are known and the record below the high watermark of every non-empty
    partition can be read, [_get_partition_data] returns one snapshot per
    partition of the metadata, in their order.  For a partition with
    high > low the only record consumed is the one at offset high - 1, and
    the latest-record timestamp is the timestamp of that record (its
    milliseconds, held as seconds); for any other partition nothing is
    consumed and the field is absent. *)
Theorem latest_timestamp_from_last_record cluster confluent_topic low high topic :
  (∀ item, item ∈ ct_partitions confluent_topic ->
     ∃ lo hi, low !! item.1 = Some lo ∧ high !! item.1 = Some hi ∧
              (hi > lo -> ∃ m, log cluster (name topic) item.1 (hi - 1) = Ok m)) ->
  ∃ data,
    _get_partition_data cluster confluent_topic low high topic =
      (consume_requests (name topic) low high (ct_partitions confluent_topic),
       Ok data) ∧
    Forall2 (snapshot_of cluster (name topic) low high)
            (ct_partitions confluent_topic) data.
Proof.
  unfold _get_partition_data.
  induction (ct_partitions confluent_topic) as [|item items IH]; intros Hitems.
  - exists []. split; [reflexivity|constructor].
  - destruct (Hitems item) as (lo & hi & Hlo & Hhi & Hlog); [left|].
    destruct (partition_snapshot_run cluster low high topic item lo hi Hlo Hhi Hlog)
      as (part & Hpart & Hsnap).
    destruct IH as (data & Hdata & Hall).
    { intros item' Hin. apply Hitems. by right. }
    exists (part :: data). split; [|by constructor].
    cbn [mapM]. rewrite Hpart, bind_Ok. cbn [fst snd].
    rewrite Hdata, bind_Ok. cbn [fst snd mret M_ret].
    by rewrite (consume_requests_cons _ _ _ item items), app_nil_r.
Qed.

Lemma latest_timestamp_from_last_record_witness :
  let confluent_topic := list_topics_of example_cluster "orders" in
  let low : gmap Z Z := {[ 0 := 0; 1 := 0 ]} in
  let high : gmap Z Z := {[ 0 := 2; 1 := 0 ]} in
  ∃ data,
    _get_partition_data example_cluster confluent_topic low high (new_Topic "orders") =
      (consume_requests "orders" low high (ct_partitions confluent_topic), Ok data) ∧
    Forall2 (snapshot_of example_cluster "orders" low high)
            (ct_partitions confluent_topic) data.
Proof.
  intros confluent_topic low high.
  apply (latest_timestamp_from_last_record example_cluster confluent_topic
           low high (new_Topic "orders")).
  intros item Hitem.
  apply elem_of_cons in Hitem as [->|Hitem];
    [|apply elem_of_cons in Hitem as [->|Hitem]; [|by apply elem_of_nil in Hitem]].
  - exists 0, 2. repeat split; [done..|]. intros _. eexists. reflexivity.
  - exists 0, 0. repeat split; [done..|]. lia.
Defined.

Example example_partition_data :
  _get_partition_data example_cluster (list_topics_of example_cluster "orders")
      {[ 0 := 0; 1 := 0 ]} {[ 0 := 2; 1 := 0 ]} (new_Topic "orders") =
    ([Consume "orders" 1 0],
     Ok [ {| partition_id := 0; low_watermark := 0; high_watermark := 2;
             partition_isrs := [1]; partition_leader := 1;
             partition_replicas := [1];
             latest_message_timestamp := Some (2500 # 1000)%Q |};
          {| partition_id := 1; low_watermark := 0; high_watermark := 0;
             partition_isrs := [1]; partition_leader := 1;
             partition_replicas := [1];
             latest_message_timestamp := None |} ]).
Proof. vm_compute. reflexivity. Qed.

(** ** The mutating operations *)

Lemma forM_requests {A} (request : A -> event) (future_of : A -> future) (l : list A) :
  forM_ (λ x, call (request x);; ensure_kafka_future_done (future_of x)) l =
    (request <$> submitted future_of l,
     match first_failure (future_of <$> l) with
     | None => Ok tt
     | Some e => Raise e
     end).
Proof.
  induction l as [|x l IH]; [done|].
  cbn [forM_ submitted fmap list_fmap first_failure]. rewrite IH.
  by destruct (future_of x); run_M.
Qed.

Lemma invalidate_cache_after_run {A} (t : list event) (r : result A) :
  invalidate_cache_after (t, r) = (t ++ [InvalidateCache], r).
Proof. reflexivity. Qed.

Lemma create_topics_run cluster cfg topics :
  create_topics cluster cfg topics =
    (((λ topic, CreateTopics (new_topic_of cfg topic) 60) <$>
        submitted (λ topic, create_topics_future cluster (new_topic_of cfg topic)) topics)
       ++ [InvalidateCache],
     match first_failure (futures_of cluster cfg (CreateTopicsOf topics)) with
     | None => Ok tt
     | Some e => Raise e
     end).
Proof.
  unfold create_topics.
  by rewrite (forM_requests (λ topic, CreateTopics (new_topic_of cfg topic) 60)
                (λ topic, create_topics_future cluster (new_topic_of cfg topic))).
Qed.

Lemma alter_configs_run cluster cfg topics :
  alter_configs cluster topics =
    (((λ topic, AlterConfigs (name topic) (config topic)) <$>
        submitted (λ topic, alter_configs_future cluster (name topic) (config topic)) topics)
       ++ [InvalidateCache],
     match first_failure (futures_of cluster cfg (AlterConfigsOf topics)) with
     | None => Ok tt
     | Some e => Raise e
     end).
Proof.
  unfold alter_configs.
  by rewrite (forM_requests (λ topic, AlterConfigs (name topic) (config topic))
                (λ topic, alter_configs_future cluster (name topic) (config topic))).
Qed.

Lemma delete_topic_run cluster cfg topic :
  delete_topic cluster topic =
    ([DeleteTopics (name topic); InvalidateCache],
     match first_failure (futures_of cluster cfg (DeleteTopicOf topic)) with
     | None => Ok tt
     | Some e => Raise e
     end).
Proof.
  unfold delete_topic. cbn [futures_of first_failure].
  by destruct (delete_topics_future cluster (name topic)).
Qed.

(** C4.  Each of the three mutating operations ends by invalidating the
    metadata cache, on every exit: the invalidation is the last entry of the
    trace and happens once, whether or not a request failed.  The outcome is
    that of the requests: it is an exception exactly when some awaited
    future failed or timed out, and then it is that failure (the broker's
    error or the timeout of the wait), raised after the invalidation. *)
Theorem cache_invalidated_on_every_exit cluster cfg (m : mutation) :
  ∃ requests,
    trace (mutate cluster cfg m) = requests ++ [InvalidateCache] ∧
    (InvalidateCache ∉ requests) ∧
    outcome (mutate cluster cfg m) =
      match first_failure (futures_of cluster cfg m) with
      | None => Ok tt
      | Some e => Raise e
      end.
Proof.
  destruct m as [topics|topics|topic]; cbn [mutate].
  - rewrite create_topics_run. eexists; split; [reflexivity|]. split; [|done].
    intros (topic & [=] & _)%list_elem_of_fmap.
  - rewrite (alter_configs_run cluster cfg).
    eexists; split; [reflexivity|]. split; [|done].
    intros (topic & [=] & _)%list_elem_of_fmap.
  - rewrite (delete_topic_run cluster cfg).
    exists [DeleteTopics (name topic)]. split; [reflexivity|]. split; [|done].
    by intros [=]%list_elem_of_singleton.
Qed.

Example example_delete_failed :
  delete_topic example_cluster (new_Topic "broken") =
    ([DeleteTopics "broken"; InvalidateCache], Raise (AdminOperationFailedError 3)).
Proof. reflexivity. Qed.

Example example_alter_timed_out :
  alter_configs example_cluster [new_Topic "orders"; new_Topic "broken"; new_Topic "audit"] =
    ([AlterConfigs "orders" ∅; AlterConfigs "broken" ∅; InvalidateCache],
     Raise CompletionTimeoutError).
Proof. reflexivity. Qed.

Lemma submitted_prefix {A} (future_of : A -> future) (pre : list A) x post :
  Forall (λ y, future_of y = Done) pre ->
  future_of x ≠ Done ->
  submitted future_of (pre ++ x :: post) = pre ++ [x].
Proof.
  intros Hpre Hx. induction Hpre as [|y pre Hy _ IH]; cbn.
  - by destruct (future_of x).
  - by rewrite Hy, IH.
Qed.

Lemma submitted_all {A} (future_of : A -> future) (l : list A) :
  Forall (λ y, future_of y = Done) l -> submitted future_of l = l.
Proof. induction 1 as [|y l Hy _ IH]; cbn; [done|]. by rewrite Hy, IH. Qed.

Lemma first_failure_prefix {A} (future_of : A -> future) (pre : list A) x post :
  Forall (λ y, future_of y = Done) pre ->
  first_failure (future_of <$> pre ++ x :: post) =
    first_failure (future_of <$> x :: post).
Proof. induction 1 as [|y pre Hy _ IH]; [done|]. cbn. by rewrite Hy. Qed.

(** C7.  [create_topics] sends one create request per topic, in order, with
    an operation timeout of 60, and waits for the future of each request
    before going on.  The request of a topic that leaves the partition count
    (the replication factor) unspecified carries the configured default, and
    a specified count is passed on as it is.  When all futures complete well
    every topic has been requested and the call returns; when the future of
    a topic fails, the request of that topic is the last one sent and the
    broker's error is raised. *)
Theorem create_requests_use_defaults cluster cfg :
  let future_of topic := create_topics_future cluster (new_topic_of cfg topic) in
  let request topic := CreateTopics (new_topic_of cfg topic) 60 in
  (∀ topic,
     nt_name (new_topic_of cfg topic) = name topic ∧
     nt_config (new_topic_of cfg topic) = config topic ∧
     nt_num_partitions (new_topic_of cfg topic) =
       default (default_num_partitions cfg) (num_partitions topic) ∧
     nt_replication_factor (new_topic_of cfg topic) =
       default (default_replication_factor cfg) (replication_factor topic)) ∧
  (∀ topics,
     Forall (λ topic, future_of topic = Done) topics ->
     create_topics cluster cfg topics =
       ((request <$> topics) ++ [InvalidateCache], Ok tt)) ∧
  (∀ pre topic post code,
     Forall (λ topic, future_of topic = Done) pre ->
     future_of topic = Failed code ->
     create_topics cluster cfg (pre ++ topic :: post) =
       ((request <$> pre ++ [topic]) ++ [InvalidateCache],
        Raise (AdminOperationFailedError code))).
Proof.
  intros future_of request. split; [|split].
  - intros topic. unfold new_topic_of. by destruct (num_partitions topic),
      (replication_factor topic).
  - intros topics Hdone. rewrite create_topics_run. cbn [futures_of].
    fold future_of. rewrite submitted_all by done.
    induction Hdone as [|topic topics Hd _ IH]; [done|].
    cbn [fmap list_fmap first_failure]. rewrite Hd.
    injection IH as IH. by rewrite IH.
  - intros pre topic post code Hpre Hfailed. rewrite create_topics_run.
    cbn [futures_of]. fold future_of.
    rewrite submitted_prefix, first_failure_prefix by (done || congruence).
    cbn [fmap list_fmap first_failure]. by rewrite Hfailed.
Qed.

Example example_create_defaults :
  create_topics example_cluster example_config
      [new_Topic "fresh";
       {| name := "sized"; num_partitions := Some 3; replication_factor := None;
          config := ∅; partition_data := []; is_only_local := true |}] =
    ([CreateTopics {| nt_name := "fresh"; nt_num_partitions := 1;
                      nt_replication_factor := 1; nt_config := ∅ |} 60;
      CreateTopics {| nt_name := "sized"; nt_num_partitions := 3;
                      nt_replication_factor := 1; nt_config := ∅ |} 60;
      InvalidateCache],
     Ok tt).
Proof. reflexivity. Qed.

Lemma create_requests_use_defaults_witness :
  create_topics example_cluster example_config
      ([new_Topic "fresh"] ++ new_Topic "broken" :: [new_Topic "late"]) =
    (((λ topic, CreateTopics (new_topic_of example_config topic) 60) <$>
        [new_Topic "fresh"] ++ [new_Topic "broken"]) ++ [InvalidateCache],
     Raise (AdminOperationFailedError 36)).
Proof.
  apply (create_requests_use_defaults example_cluster example_config).
  - repeat constructor.
  - reflexivity.
Defined.

(** ** The diff engine *)

Lemma set_diff_lookup attr old new (diffs : gmap string (value * value)) k :
  set_diff attr old new diffs !! k =
    if decide (attr = k ∧ old ≠ new) then Some (old, new) else diffs !! k.
Proof.
  unfold set_diff. destruct (decide (old = new)) as [->|Hne].
  - rewrite decide_False by (by intros [_ ?]). done.
  - destruct (decide (attr = k)) as [->|Hk].
    + by rewrite lookup_insert_eq, decide_True.
    + rewrite lookup_insert_ne by done. by rewrite decide_False by (by intros [? _]).
Qed.

Lemma config_diffs_lookup (local : gmap string string)
    (items : list (string * string)) (diffs : gmap string (value * value)) k :
  NoDup items.*1 ->
  foldl (λ diffs item,
           set_diff item.1 (VStr item.2) (of_str (local !! item.1)) diffs)
        diffs items !! k =
    match (list_to_map items : gmap string string) !! k with
    | Some v =>
        if decide (VStr v = of_str (local !! k)) then diffs !! k
        else Some (VStr v, of_str (local !! k))
    | None => diffs !! k
    end.
Proof.
  revert diffs. induction items as [|[k' v'] items IH]; intros diffs Hnodup; [done|].
  apply NoDup_cons in Hnodup as [Hk' Hnodup].
  cbn [foldl fst snd]. rewrite IH by done. rewrite list_to_map_cons.
  destruct (decide (k' = k)) as [->|Hne].
  - rewrite lookup_insert_eq, (not_elem_of_list_to_map_1 _ k) by done.
    rewrite set_diff_lookup.
    destruct (decide (VStr v' = of_str (local !! k))).
    + by rewrite decide_False by (by intros [_ ?]).
    + by rewrite decide_True.
  - rewrite lookup_insert_ne by done.
    rewrite set_diff_lookup, decide_False by (by intros [? _]). done.
Qed.

Lemma count_diffs_differ cluster_topic local k old new :
  count_diffs cluster_topic local !! k = Some (old, new) ->
  old ≠ new ∧ (k = "num_partitions" ∨ k = "replication_factor").
Proof.
  unfold count_diffs. rewrite !set_diff_lookup, lookup_empty.
  destruct (decide ("replication_factor" = k ∧ _)) as [[<- Hne]|_];
    [intros [= <- <-]; auto|].
  destruct (decide ("num_partitions" = k ∧ _)) as [[<- Hne]|_];
    [intros [= <- <-]; auto|done].
Qed.

Lemma count_diffs_equal cluster_topic local :
  num_partitions local = num_partitions cluster_topic ->
  replication_factor local = replication_factor cluster_topic ->
  count_diffs cluster_topic local = ∅.
Proof.
  intros Hp Hr. unfold count_diffs, set_diff. rewrite Hp, Hr.
  by rewrite !decide_True.
Qed.

Lemma diff_with_cluster_run cluster local t cluster_topic :
  is_only_local local = true ->
  get_cluster_topic cluster (name local) = (t, Ok cluster_topic) ->
  ∃ diffs,
    diff_with_cluster cluster local = (t, Ok diffs) ∧
    ∀ k, diffs !! k =
           match config cluster_topic !! k with
           | Some v =>
               if decide (VStr v = of_str (config local !! k))
               then count_diffs cluster_topic local !! k
               else Some (VStr v, of_str (config local !! k))
           | None => count_diffs cluster_topic local !! k
           end.
Proof.
  intros Hlocal Hfetch. unfold diff_with_cluster.
  rewrite Hlocal, Hfetch. run_M. eexists. split; [reflexivity|].
  intros k. fold (count_diffs cluster_topic local).
  rewrite config_diffs_lookup by apply NoDup_fst_map_to_list.
  by rewrite list_to_map_to_list.
Qed.


(** ** Unknown topics and the precondition of the diff *)

Lemma _get_client_topic_unknown cluster topic_name client_type code :
  ct_error (list_topics_of cluster topic_name) = Some code ->
  _get_client_topic cluster topic_name client_type =
    ([ListTopics (Some topic_name) (Some 10)], Raise (TopicNotFoundError code)).
Proof. intros Herr. unfold _get_client_topic. rewrite Herr. by run_M. Qed.

Lemma update_from_cluster_unknown cluster topic code :
  ct_error (list_topics_of cluster (name topic)) = Some code ->
  update_from_cluster cluster topic =
    ([ListTopics (Some (name topic)) (Some 10)], Raise (TopicNotFoundError code)).
Proof.
  intros Herr. unfold update_from_cluster.
  rewrite (_get_client_topic_unknown cluster (name topic) Confluent code Herr).
  reflexivity.
Qed.

(** C8.  When the admin metadata reports an error for a topic name, every
    operation that fetches the cluster state of that topic raises
    [TopicNotFoundError] right after the one metadata lookup: the lookup is
    the only call made, it is not repeated, and no later step runs.  This
    holds for [_get_client_topic] with either client, [update_from_cluster],
    [get_cluster_topic], [diff_with_cluster] on a local-only topic and
    [get_offsets_closest_to_timestamp]. *)
Theorem unknown_topic_fails_at_once cluster topic_name code :
  ct_error (list_topics_of cluster topic_name) = Some code ->
  let failed {A} : M A :=
    ([ListTopics (Some topic_name) (Some 10)], Raise (TopicNotFoundError code)) in
  (∀ client_type, _get_client_topic cluster topic_name client_type = failed) ∧
  (∀ topic, name topic = topic_name -> update_from_cluster cluster topic = failed) ∧
  get_cluster_topic cluster topic_name = failed ∧
  (∀ local, name local = topic_name -> is_only_local local = true ->
     diff_with_cluster cluster local = failed) ∧
  (∀ limit, get_offsets_closest_to_timestamp cluster topic_name limit = failed).
Proof.
  intros Herr failed. unfold failed. repeat split.
  - intros client_type. by apply _get_client_topic_unknown.
  - intros topic <-. by apply update_from_cluster_unknown.
  - by apply (update_from_cluster_unknown cluster (new_Topic topic_name)).
  - intros local <- Hlocal. unfold diff_with_cluster, get_cluster_topic.
    rewrite Hlocal.
    rewrite (update_from_cluster_unknown cluster (new_Topic (name local)) code) by done.
    reflexivity.
  - intros limit. unfold get_offsets_closest_to_timestamp, get_cluster_topic.
    rewrite (update_from_cluster_unknown cluster (new_Topic topic_name) code) by done.
    reflexivity.
Qed.

Lemma unknown_topic_fails_at_once_witness :
  get_cluster_topic example_cluster "audit" =
    ([ListTopics (Some "audit") (Some 10)], Raise (TopicNotFoundError 3)) ∧
  get_offsets_closest_to_timestamp example_cluster "audit" 0 =
    ([ListTopics (Some "audit") (Some 10)], Raise (TopicNotFoundError 3)).
Proof.
  destruct (unknown_topic_fails_at_once example_cluster "audit" 3 eq_refl)
    as (_ & _ & Hget & _ & Hoffsets).
  split; [exact Hget|exact (Hoffsets 0)].
Defined.

Lemma _get_client_topic_starts cluster topic_name client_type :
  ∃ t, trace (_get_client_topic cluster topic_name client_type) =
         ListTopics (Some topic_name) (Some 10) :: t.
Proof.
  unfold trace, _get_client_topic.
  destruct (ct_error (list_topics_of cluster topic_name)), client_type; run_M;
    try destruct (pykafka_topics cluster !! topic_name); by eexists.
Qed.

Lemma get_cluster_topic_starts cluster topic_name :
  ∃ t, trace (get_cluster_topic cluster topic_name) =
         ListTopics (Some topic_name) (Some 10) :: t.
Proof.
  unfold get_cluster_topic, update_from_cluster. cbn [name new_Topic].
  destruct (_get_client_topic_starts cluster topic_name Confluent) as [t Ht].
  destruct (_get_client_topic cluster topic_name Confluent) as [t' [topic|e]];
    cbn [trace fst] in Ht; subst t'.
  - rewrite bind_Ok. by eexists.
  - by eexists.
Qed.

(** C9.  [diff_with_cluster] asserts that its argument is local-only.  On a
    topic with [is_only_local = false] it raises the assertion error before
    anything is asked of the cluster.  On a topic with
    [is_only_local = true] the assertion passes: the call goes on to the
    metadata lookup, and whatever it raises is raised by the fetch of the
    cluster topic. *)
Theorem diff_asserts_local_only cluster local :
  (is_only_local local = false ->
   diff_with_cluster cluster local =
     ([], Raise (AssertionError "Can only diff local topics with remote"))) ∧
  (is_only_local local = true ->
   (∃ t, trace (diff_with_cluster cluster local) =
           ListTopics (Some (name local)) (Some 10) :: t) ∧
   (∀ e, outcome (diff_with_cluster cluster local) = Raise e ->
         outcome (get_cluster_topic cluster (name local)) = Raise e)).
Proof.
  split; intros Hlocal; unfold diff_with_cluster; rewrite Hlocal; [done|].
  destruct (get_cluster_topic_starts cluster (name local)) as [t Ht].
  destruct (get_cluster_topic cluster (name local)) as [t' [topic|e']];
    cbn [trace fst] in Ht; subst t'; unfold trace, outcome; run_M.
  all: split; [eexists; reflexivity|]; intros e He;
    first [discriminate He | by injection He as ->].
Qed.

Lemma diff_asserts_local_only_witness :
  diff_with_cluster example_cluster
      {| name := "orders"; num_partitions := Some 2; replication_factor := None;
         config := ∅; partition_data := []; is_only_local := false |} =
    ([], Raise (AssertionError "Can only diff local topics with remote")).
Proof.
  apply (diff_asserts_local_only example_cluster). reflexivity.
Defined.

(** ** Listing topics *)

Lemma bind_Ok_inv {A B} (m : M A) (f : A -> M B) t b :
  m ≫= f = (t, Ok b) ->
  ∃ t1 a t2, m = (t1, Ok a) ∧ f a = (t2, Ok b) ∧ t = t1 ++ t2.
Proof.
  destruct m as [t1 [a|e]]; [|done]. rewrite bind_Ok.
  destruct (f a) as [t2 r] eqn:Hf. cbn [fst snd]. intros [= <- ->].
  by eexists _, _, _.
Qed.

Lemma Forall_trace_bind {A B} (P : event -> Prop) (m : M A) (f : A -> M B) :
  Forall P (trace m) ->
  (∀ a, Forall P (trace (f a))) ->
  Forall P (trace (m ≫= f)).
Proof.
  intros Hm Hf. destruct m as [t [a|e]]; [|done].
  rewrite bind_Ok. cbn [trace fst] in *. apply Forall_app. split; [done|apply Hf].
Qed.

Lemma mapM_trace {A B} (P : event -> Prop) (f : A -> M B) (l : list A) :
  Forall (λ x, Forall P (trace (f x))) l ->
  Forall P (trace (mapM f l)).
Proof.
  induction 1 as [|x l Hx _ IH]; [constructor|].
  cbn [mapM]. apply Forall_trace_bind; [done|]. intros y.
  apply Forall_trace_bind; [done|]. intros ys. constructor.
Qed.

Lemma mapM_Ok {A B} (f : A -> M B) (l : list A) t ys :
  mapM f l = (t, Ok ys) ->
  Forall2 (λ x y, ∃ t', f x = (t', Ok y)) l ys.
Proof.
  revert t ys. induction l as [|x l IH]; intros t ys; cbn [mapM].
  - intros [= <- <-]. constructor.
  - intros (t1 & y & t2 & Hx & (t3 & ys' & t4 & Hl & [= _ <-] & _)%bind_Ok_inv & _)%bind_Ok_inv.
    constructor; [by eexists|]. by eapply IH.
Qed.

Lemma mapM_total {A B} (f : A -> M B) (l : list A) :
  Forall (λ x, ∃ t y, f x = (t, Ok y)) l ->
  ∃ t ys, mapM f l = (t, Ok ys).
Proof.
  induction 1 as [|x l (t & y & Hx) _ (t' & ys & IH)]; [by eexists _, _|].
  cbn [mapM]. rewrite Hx, bind_Ok, IH. by eexists _, _.
Qed.

Lemma update_from_cluster_name cluster topic t topic' :
  update_from_cluster cluster topic = (t, Ok topic') -> name topic' = name topic.
Proof.
  unfold update_from_cluster. intros H.
  repeat (apply bind_Ok_inv in H as (? & ? & ? & _ & H & _)).
  by injection H as _ <-.
Qed.

Lemma partition_snapshot_trace cluster low high topic item :
  Forall (λ e, event_topic e = Some (name topic))
         (trace (partition_snapshot cluster low high topic item)).
Proof.
  destruct item as [pid meta]. unfold partition_snapshot, getitem.
  apply Forall_trace_bind; [by destruct (low !! pid)|]. intros lo.
  apply Forall_trace_bind; [by destruct (high !! pid)|]. intros hi.
  apply Forall_trace_bind; [|by constructor].
  case_bool_decide; [|by constructor].
  apply Forall_trace_bind; [by repeat constructor|]. intros _.
  apply Forall_trace_bind; [by constructor|]. by constructor.
Qed.

Lemma _get_client_topic_trace cluster topic_name client_type :
  Forall (λ e, event_topic e = Some topic_name)
         (trace (_get_client_topic cluster topic_name client_type)).
Proof.
  unfold _get_client_topic.
  apply Forall_trace_bind; [by repeat constructor|]. intros _.
  apply Forall_trace_bind;
    [by destruct (ct_error (list_topics_of cluster topic_name))|]. intros _.
  destruct client_type; [by constructor|].
  by destruct (pykafka_topics cluster !! topic_name).
Qed.

Lemma update_from_cluster_trace cluster topic :
  Forall (λ e, event_topic e = Some (name topic))
         (trace (update_from_cluster cluster topic)).
Proof.
  unfold update_from_cluster.
  apply Forall_trace_bind;
    [exact (_get_client_topic_trace cluster (name topic) Confluent)|]. intros c.
  apply Forall_trace_bind;
    [exact (_get_client_topic_trace cluster (name topic) PyKafka)|]. intros p.
  apply Forall_trace_bind; [by repeat constructor|]. intros _.
  apply Forall_trace_bind; [by repeat constructor|]. intros _.
  apply Forall_trace_bind.
  { apply mapM_trace, Forall_forall. intros item _. apply partition_snapshot_trace. }
  intros data.
  apply Forall_trace_bind; [by repeat constructor|]. intros _.
  apply Forall_trace_bind; [by constructor|]. by constructor.
Qed.



Lemma listed_names_sorted cluster re_match search sort hide :
  listed_names cluster re_match search sort hide =
    if sort then merge_sort String.le (listed_names cluster re_match search false hide)
    else listed_names cluster re_match search false hide.
Proof. by destruct sort. Qed.


Lemma get_cluster_topics_trace cluster (names : list string) :
  Forall (λ e, ∀ n, event_topic e = Some n -> n ∈ names)
         (trace (mapM (get_cluster_topic cluster) names)).
Proof.
  apply mapM_trace, Forall_forall. intros n Hn.
  eapply Forall_impl; [apply update_from_cluster_trace|].
  cbn. intros e -> n' [= <-]. done.
Qed.

Lemma get_cluster_topics_names cluster (names : list string) t ts :
  mapM (get_cluster_topic cluster) names = (t, Ok ts) -> name <$> ts = names.
Proof.
  intros Hall%mapM_Ok. induction Hall as [|n topic names ts [t' Hn] _ IH]; [done|].
  cbn. rewrite IH. f_equal. by apply update_from_cluster_name in Hn.
Qed.

Lemma get_local_topics_run (names : list string) :
  mapM get_local_topic names = ([], Ok (new_Topic <$> names)).
Proof.
  induction names as [|n names IH]; [done|]. cbn [mapM]. rewrite IH. by run_M.
Qed.



Example example_listed_names :
  listed_names example_cluster String.prefix None true true = ["audit"; "orders"] ∧
  listed_names example_cluster String.prefix None false false =
    ["orders"; "__consumer_offsets"; "audit"] ∧
  listed_names example_cluster String.prefix (Some "or") true true = ["orders"] ∧
  listed_names example_cluster String.prefix (Some "__") true true = [].
Proof. vm_compute. done. Qed.

Example example_list_cluster_topics :
  trace (list_topics example_cluster String.prefix (Some "or") true true true) =
    [ClientPoll 1; ListTopics None None;
     ListTopics (Some "orders") (Some 10); ListTopics (Some "orders") (Some 10);
     EarliestAvailableOffsets "orders"; LatestAvailableOffsets "orders";
     Consume "orders" 1 0; RetrieveConfig "orders"].
Proof. vm_compute. reflexivity. Qed.

(** * Further properties of the controller *)

(** ** The snapshot builder, seen from its result *)

Lemma partition_snapshot_Ok_inv cluster low high topic item t part :
  partition_snapshot cluster low high topic item = (t, Ok part) ->
  t = consume_requests (name topic) low high [item] ∧
  snapshot_of cluster (name topic) low high item part.
Proof.
  destruct item as [pid meta].
  unfold partition_snapshot, getitem, consume_requests, snapshot_of.
  cbn [mbind list_bind fst].
  destruct (low !! pid) as [lo|]; [|done].
  destruct (high !! pid) as [hi|]; [|done]. run_M.
  case_bool_decide as Hcmp.
  - destruct (log cluster (name topic) pid (hi - 1)) as [m|e] eqn:Hm; run_M; [|done].
    intros [= <- <-]. cbn. rewrite bool_decide_eq_true_2 by done.
    repeat split; try done. by exists m.
  - run_M. intros [= <- <-]. cbn. rewrite bool_decide_eq_false_2 by done.
    by repeat split.
Qed.

Lemma _get_partition_data_Ok_inv cluster confluent_topic low high topic t data :
  _get_partition_data cluster confluent_topic low high topic = (t, Ok data) ->
  t = consume_requests (name topic) low high (ct_partitions confluent_topic) ∧
  Forall2 (snapshot_of cluster (name topic) low high)
          (ct_partitions confluent_topic) data.
Proof.
  unfold _get_partition_data. revert t data.
  induction (ct_partitions confluent_topic) as [|item items IH]; intros t data.
  - intros [= <- <-]. split; [done|constructor].
  - cbn [mapM].
    intros (t1 & part & t2 & Hpart & (t3 & parts & t4 & Hparts & [= <- <-] & ->)%bind_Ok_inv
            & ->)%bind_Ok_inv.
    apply partition_snapshot_Ok_inv in Hpart as [-> Hpart].
    apply IH in Hparts as [-> Hparts].
    split; [|by constructor].
    by rewrite (consume_requests_cons _ _ _ item items), app_nil_r.
Qed.

Lemma consume_requests_length topic_name low high items :
  (length (consume_requests topic_name low high items) <= length items)%nat.
Proof.
  induction items as [|item items IH]; [done|].
  rewrite consume_requests_cons, length_app. cbn [length].
  enough (length (consume_requests topic_name low high [item]) <= 1)%nat by lia.
  unfold consume_requests. cbn [mbind list_bind].
  destruct (low !! item.1), (high !! item.1); try case_bool_decide; cbn; lia.
Qed.

Lemma update_from_cluster_Ok_inv cluster topic t topic' :
  update_from_cluster cluster topic = (t, Ok topic') ->
  ∃ pykafka_topic cfg data,
    ct_error (list_topics_of cluster (name topic)) = None ∧
    pykafka_topics cluster !! name topic = Some pykafka_topic ∧
    retrieve_config cluster (name topic) = Ok cfg ∧
    _get_partition_data cluster (list_topics_of cluster (name topic))
        (earliest_available_offsets pykafka_topic)
        (latest_available_offsets pykafka_topic) topic =
      (consume_requests (name topic) (earliest_available_offsets pykafka_topic)
         (latest_available_offsets pykafka_topic)
         (ct_partitions (list_topics_of cluster (name topic))), Ok data) ∧
    topic' = {| name := name topic;
                num_partitions := cluster_num_partitions data;
                replication_factor := cluster_replication_factor data;
                config := cfg; partition_data := data; is_only_local := false |} ∧
    t = [ListTopics (Some (name topic)) (Some 10);
         ListTopics (Some (name topic)) (Some 10);
         EarliestAvailableOffsets (name topic);
         LatestAvailableOffsets (name topic)] ++
        consume_requests (name topic) (earliest_available_offsets pykafka_topic)
          (latest_available_offsets pykafka_topic)
          (ct_partitions (list_topics_of cluster (name topic))) ++
        [RetrieveConfig (name topic)].
Proof.
  unfold update_from_cluster, _get_client_topic.
  destruct (ct_error (list_topics_of cluster (name topic))) as [code|]; [done|].
  destruct (pykafka_topics cluster !! name topic) as [p|]; [|done].
  run_M.
  destruct (_get_partition_data _ _ _ _ _) as [t1 [data|e]] eqn:Hdata; [|done].
  destruct (retrieve_config cluster (name topic)) as [cfg|e]; [|done].
  intros [= <- <-].
  destruct (_get_partition_data_Ok_inv _ _ _ _ _ _ _ Hdata) as [-> _].
  exists p, cfg, data. by repeat split.
Qed.

(** X1.  The topic that [update_from_cluster] returns carries the name of
    the topic it was given, is marked as coming from the cluster, holds the
    configuration the cluster reports for that name, and has one partition
    snapshot for each partition of the admin metadata, in the same order,
    with the id and the two watermarks of that partition. *)
Theorem snapshot_follows_admin_metadata cluster topic t topic' :
  update_from_cluster cluster topic = (t, Ok topic') ->
  name topic' = name topic ∧
  is_only_local topic' = false ∧
  retrieve_config cluster (name topic) = Ok (config topic') ∧
  partition_id <$> partitions topic' =
    fst <$> ct_partitions (list_topics_of cluster (name topic)) ∧
  ∃ pykafka_topic,
    pykafka_topics cluster !! name topic = Some pykafka_topic ∧
    Forall (λ part,
              earliest_available_offsets pykafka_topic !! partition_id part
                = Some (low_watermark part) ∧
              latest_available_offsets pykafka_topic !! partition_id part
                = Some (high_watermark part))
           (partitions topic').
Proof.
  intros (p & cfg & data & _ & Hp & Hcfg & Hdata & -> & _)%update_from_cluster_Ok_inv.
  apply _get_partition_data_Ok_inv in Hdata as [_ Hdata].
  cbn [name is_only_local config partitions partition_data].
  repeat split; [done| |].
  - induction Hdata as [|item part items data (Hid & _) _ IH]; [done|].
    cbn. by rewrite Hid, IH.
  - exists p. split; [done|].
    induction Hdata as [|item part items data (Hid & Hlo & Hhi & _) _ IH];
      constructor; [|done]. by rewrite Hid.
Qed.

Lemma snapshot_follows_admin_metadata_witness :
  ∃ t topic',
    update_from_cluster example_cluster (new_Topic "orders") = (t, Ok topic') ∧
    name topic' = "orders" ∧ is_only_local topic' = false ∧
    partition_id <$> partitions topic' = [0; 1].
Proof.
  eexists _, _. split; [vm_compute; reflexivity|].
  eassert (update_from_cluster example_cluster (new_Topic "orders") = (_, Ok _)) as Hrun
    by (vm_compute; reflexivity).
  destruct (snapshot_follows_admin_metadata _ _ _ _ Hrun) as (Hname & Hlocal & _ & Hids & _).
  exact (conj Hname (conj Hlocal Hids)).
Defined.

(** X2.  A successful [update_from_cluster] makes these calls and no
    others, in this order: the metadata lookup twice (once for each client
    view), the earliest and the latest offsets, one targeted read for each
    partition whose high watermark is above its low watermark, and the
    configuration lookup last.  So there are at most as many reads as the
    topic has partitions. *)
Theorem snapshot_calls_in_order cluster topic t topic' :
  update_from_cluster cluster topic = (t, Ok topic') ->
  ∃ reads,
    t = [ListTopics (Some (name topic)) (Some 10);
         ListTopics (Some (name topic)) (Some 10);
         EarliestAvailableOffsets (name topic);
         LatestAvailableOffsets (name topic)] ++ reads ++
        [RetrieveConfig (name topic)] ∧
    (length reads <= length (partitions topic'))%nat ∧
    reads =
      (partitions topic' ≫= λ part,
         if bool_decide (high_watermark part > low_watermark part)
         then [Consume (name topic) (high_watermark part - 1) (partition_id part)]
         else []).
Proof.
  intros (p & cfg & data & _ & Hp & Hcfg & Hdata & -> & ->)%update_from_cluster_Ok_inv.
  apply _get_partition_data_Ok_inv in Hdata as [_ Hdata].
  eexists. split; [reflexivity|]. cbn [partitions partition_data].
  split.
  - rewrite <- (Forall2_length _ _ _ Hdata). apply consume_requests_length.
  - induction Hdata as [|item part items data (Hid & Hlo & Hhi & _) _ IH]; [done|].
    rewrite consume_requests_cons, IH. cbn [mbind list_bind]. f_equal.
    unfold consume_requests. cbn [mbind list_bind].
    rewrite Hlo, Hhi, Hid, app_nil_r. done.
Qed.

Lemma snapshot_calls_in_order_witness :
  ∃ t topic',
    update_from_cluster example_cluster (new_Topic "orders") = (t, Ok topic') ∧
    ∃ reads,
      t = [ListTopics (Some "orders") (Some 10); ListTopics (Some "orders") (Some 10);
           EarliestAvailableOffsets "orders"; LatestAvailableOffsets "orders"] ++
          reads ++ [RetrieveConfig "orders"] ∧
      (length reads <= length (partitions topic'))%nat.
Proof.
  eexists _, _. split; [vm_compute; reflexivity|].
  edestruct (snapshot_calls_in_order example_cluster (new_Topic "orders"))
    as (reads & Ht & Hlen & _); [vm_compute; reflexivity|].
  exists reads. split; [exact Ht|exact Hlen].
Defined.

(** ** A partition that cannot be described *)

Lemma mapM_raise {A B} (f : A -> M B) (pre : list A) x post ts ys t e :
  mapM f pre = (ts, Ok ys) ->
  f x = (t, Raise e) ->
  mapM f (pre ++ x :: post) = (ts ++ t, Raise e).
Proof.
  revert ts ys. induction pre as [|y pre IH]; intros ts ys; cbn [mapM app].
  - intros [= <- <-] ->. reflexivity.
  - intros (t1 & b & t2 & Hy & (t3 & bs & t4 & Hpre & [= <- <-] & ->)%bind_Ok_inv
            & ->)%bind_Ok_inv Hx.
    rewrite Hy, bind_Ok, (IH _ _ Hpre Hx), bind_Raise. cbn [fst snd].
    by rewrite app_nil_r, app_assoc.
Qed.

Lemma snapshots_available_run cluster low high topic items :
  Forall (snapshot_available cluster (name topic) low high) items ->
  ∃ data,
    mapM (partition_snapshot cluster low high topic) items =
      (consume_requests (name topic) low high items, Ok data).
Proof.
  induction 1 as [|item items (lo & hi & Hlo & Hhi & Hlog) _ (data & IH)].
  - by exists [].
  - destruct (partition_snapshot_run cluster low high topic item lo hi Hlo Hhi Hlog)
      as (part & Hpart & _).
    exists (part :: data). cbn [mapM]. rewrite Hpart, bind_Ok, IH, bind_Ok.
    cbn [fst snd mret M_ret].
    by rewrite app_nil_r, (consume_requests_cons _ _ _ item items).
Qed.

(** X3.  [_get_partition_data] gives no partial result.  When the partitions
    before some partition of the admin metadata can be described and that
    partition has no entry in the low or in the high watermarks, the call
    raises [KeyError] for its id; when its record below the high watermark
    cannot be read, the call raises the exception of the read.  In each case
    the partitions after it are not looked at. *)
Theorem snapshot_stops_at_first_failure cluster confluent_topic low high topic
    pre item post :
  ct_partitions confluent_topic = pre ++ item :: post ->
  Forall (snapshot_available cluster (name topic) low high) pre ->
  let reads := consume_requests (name topic) low high pre in
  (low !! item.1 = None ∨ high !! item.1 = None ->
   _get_partition_data cluster confluent_topic low high topic =
     (reads, Raise (KeyError (VInt item.1)))) ∧
  (∀ lo hi e,
     low !! item.1 = Some lo -> high !! item.1 = Some hi -> hi > lo ->
     log cluster (name topic) item.1 (hi - 1) = Raise e ->
     _get_partition_data cluster confluent_topic low high topic =
       (reads ++ [Consume (name topic) (hi - 1) item.1], Raise e)).
Proof.
  intros Hitems Hpre reads. unfold _get_partition_data. rewrite Hitems.
  destruct (snapshots_available_run cluster low high topic pre Hpre) as (data & Hdata).
  destruct item as [pid meta]. cbn [fst]. split.
  - intros Hmissing.
    assert (partition_snapshot cluster low high topic (pid, meta) =
              ([], Raise (KeyError (VInt pid)))) as Hitem.
    { unfold partition_snapshot, getitem.
      destruct (low !! pid) as [lo|]; [|done].
      destruct Hmissing as [?| ->]; done. }
    rewrite (mapM_raise _ _ _ _ _ _ _ _ Hdata Hitem). by rewrite app_nil_r.
  - intros lo hi e Hlo Hhi Hcmp Hlog.
    assert (partition_snapshot cluster low high topic (pid, meta) =
              ([Consume (name topic) (hi - 1) pid], Raise e)) as Hitem.
    { unfold partition_snapshot, getitem. rewrite Hlo, Hhi. run_M.
      rewrite bool_decide_eq_true_2 by done. rewrite Hlog. by run_M. }
    by rewrite (mapM_raise _ _ _ _ _ _ _ _ Hdata Hitem).
Qed.

Lemma snapshot_stops_at_first_failure_witness :
  _get_partition_data example_cluster (list_topics_of example_cluster "orders")
      {[ 0 := 0; 1 := 0 ]} {[ 0 := 2 ]} (new_Topic "orders") =
    (consume_requests "orders" {[ 0 := 0; 1 := 0 ]} {[ 0 := 2 ]} [(0, example_metadata)],
     Raise (KeyError (VInt 1))).
Proof.
  apply (snapshot_stops_at_first_failure example_cluster
           (list_topics_of example_cluster "orders")
           {[ 0 := 0; 1 := 0 ]} {[ 0 := 2 ]} (new_Topic "orders")
           [(0, example_metadata)] (1, example_metadata) []).
  - reflexivity.
  - constructor; [|constructor]. exists 0, 2. repeat split; [done..|].
    intros _. eexists. reflexivity.
  - right. reflexivity.
Defined.

(** ** The resolver, partition by partition *)

Lemma keys_in_order_elem_of (l : list Z) k : k ∈ keys_in_order l ↔ k ∈ l.
Proof.
  induction l as [|k' l IH]; [done|]. cbn [keys_in_order].
  rewrite !elem_of_cons, list_elem_of_filter, IH.
  destruct (decide (k = k')); intuition congruence.
Qed.

Lemma keys_in_order_NoDup (l : list Z) : NoDup (keys_in_order l).
Proof.
  induction l as [|k l IH]; [constructor|]. cbn [keys_in_order].
  constructor; [|by apply NoDup_filter].
  rewrite list_elem_of_filter. by intros [? _].
Qed.

Lemma own_partition_polled p n (c : consumer) :
  own_partition_only p c = true ->
  Forall (λ m, msg_partition m = p) (messages (polled n c)).
Proof.
  unfold own_partition_only. revert n.
  induction c as [|[m| | |e] c IH]; intros n; cbn; try by constructor.
  - intros [Hm%bool_decide_eq_true Hc]%andb_true_iff. constructor; [done|].
    by apply IH.
  - intros Hc. case_bool_decide; [constructor|]. by apply IH.
Qed.

Lemma filter_other_partition (P : Message -> Prop) `{∀ m, Decision (P m)} q p
    (ms : list Message) :
  q ≠ p ->
  Forall (λ m, msg_partition m = q) ms ->
  filter (λ m, msg_partition m = p ∧ P m) ms = [].
Proof.
  intros Hne. induction 1 as [|m ms Hm _ IH]; [done|].
  rewrite filter_cons_False by (intros [? _]; congruence). done.
Qed.

Lemma filter_consumed_own (P : Message -> Prop) `{∀ m, Decision (P m)}
    cluster topic_name (keys : list Z) p :
  NoDup keys ->
  Forall (λ q, own_partition_only q (deliveries cluster topic_name q) = true) keys ->
  filter (λ m, msg_partition m = p ∧ P m) (consumed cluster topic_name keys) =
    if decide (p ∈ keys)
    then filter (λ m, msg_partition m = p ∧ P m)
           (messages (polled 5 (deliveries cluster topic_name p)))
    else [].
Proof.
  unfold consumed. intros Hnodup Hown.
  induction Hown as [|q keys Hq _ IH]; [done|].
  apply NoDup_cons in Hnodup as [Hfresh Hnodup]. specialize (IH Hnodup).
  cbn [fmap list_fmap concat]. rewrite filter_app, IH.
  destruct (decide (q = p)) as [->|Hne].
  - rewrite decide_False, decide_True, app_nil_r by (done || left). done.
  - rewrite (filter_other_partition P q p) by (done || by apply own_partition_polled).
    destruct (decide (p ∈ keys)) as [Hin|Hout].
    + by rewrite decide_True by (by right).
    + rewrite decide_False; [done|]. by intros [?|?]%elem_of_cons.
Qed.

(** X4.  When every consumer delivers messages of its own partition only,
    the resolver returns a mapping whose keys are exactly the partition ids
    of the topic, and the offset of a partition is decided by the messages
    of its own consumer alone: what the other partitions hold, and the order
    in which the partitions are scanned, make no difference to it. *)
Theorem offsets_decided_per_partition cluster topic_name limit t topic :
  get_cluster_topic cluster topic_name = (t, Ok topic) ->
  (∀ p, forallb no_failure (deliveries cluster topic_name p) = true) ->
  (∀ p, own_partition_only p (deliveries cluster topic_name p) = true) ->
  ∃ t' offsets,
    get_offsets_closest_to_timestamp cluster topic_name limit = (t', Ok offsets) ∧
    (∀ k, is_Some (offsets !! k) ↔ k ∈ partition_id <$> partitions topic) ∧
    (∀ part, part ∈ partitions topic ->
       offsets !! partition_id part =
         Some (closest_offset earlier_than limit
                 (messages (polled 5 (deliveries cluster topic_name (partition_id part))))
                 (partition_id part))).
Proof.
  intros Htopic Hquiet Hown.
  destruct (get_offsets_run cluster topic_name limit t topic Htopic) as (t' & Hrun).
  { apply Forall_forall. intros p _. apply no_failure_polled, Hquiet. }
  eexists _, _. split; [exact Hrun|].
  assert (∀ k,
    filter (λ m, msg_partition m = k ∧ earlier_than m limit = true)
      (consumed cluster topic_name (keys_in_order (partition_id <$> partitions topic))) =
    if decide (k ∈ partition_id <$> partitions topic)
    then filter (λ m, msg_partition m = k ∧ earlier_than m limit = true)
           (messages (polled 5 (deliveries cluster topic_name k)))
    else []) as Hfilter.
  { intros k.
    rewrite (filter_consumed_own (λ m, earlier_than m limit = true))
      by (apply keys_in_order_NoDup || (apply Forall_forall; auto)).
    destruct (decide (k ∈ keys_in_order _)) as [Hk|Hk];
      rewrite keys_in_order_elem_of in Hk.
    - by rewrite decide_True.
    - by rewrite decide_False. }
  split.
  - intros k. rewrite record_offsets_lookup, Hfilter.
    destruct (decide (k ∈ partition_id <$> partitions topic)) as [Hk|Hk].
    + split; [done|]. intros _. destruct (last _); [done|].
      rewrite initial_offsets_lookup by done. done.
    + cbn [last]. split; [|done]. intros [o Ho].
      apply elem_of_list_to_map_2 in Ho.
      apply list_elem_of_fmap in Ho as (part & [= -> _] & Hpart).
      destruct Hk. apply list_elem_of_fmap. by exists part.
  - intros part Hpart.
    assert (partition_id part ∈ partition_id <$> partitions topic) as Hk
      by (apply list_elem_of_fmap; by exists part).
    rewrite record_offsets_lookup, Hfilter, decide_True by done.
    unfold closest_offset. destruct (last _); [done|].
    by apply initial_offsets_lookup.
Qed.

Lemma offsets_decided_per_partition_witness :
  ∃ t topic,
    get_cluster_topic example_cluster "orders" = (t, Ok topic) ∧
    ∃ t' offsets,
      get_offsets_closest_to_timestamp example_cluster "orders" 3000000
        = (t', Ok offsets) ∧
      ∀ k, is_Some (offsets !! k) ↔ k ∈ partition_id <$> partitions topic.
Proof.
  eexists _, _. split; [vm_compute; reflexivity|].
  edestruct (offsets_decided_per_partition example_cluster "orders" 3000000)
    as (t' & offsets & Hrun & Hdom & _).
  - vm_compute. reflexivity.
  - intros p. cbn. case_decide; reflexivity.
  - intros p. cbn. case_decide; [subst p|]; reflexivity.
  - exists t', offsets. split; [exact Hrun|exact Hdom].
Defined.

(** ** The target instant *)

Lemma closest_offset_cons earlier limit m (ms : list Message) p :
  closest_offset earlier limit (m :: ms) p =
    match last (filter (λ m, msg_partition m = p ∧ earlier m limit = true) ms) with
    | Some _ => closest_offset earlier limit ms p
    | None =>
        if decide (msg_partition m = p ∧ earlier m limit = true)
        then msg_offset m + 1 else 0
    end.
Proof.
  unfold closest_offset. rewrite filter_cons. case_decide.
  - rewrite last_cons. by destruct (last _).
  - by destruct (last _).
Qed.

Lemma ascending_last_filter (P : Message -> Prop) `{∀ m, Decision (P m)}
    floor (ms : list Message) b :
  ascending_offsets floor ms = true ->
  last (filter P ms) = Some b ->
  floor ≤ msg_offset b.
Proof.
  revert floor. induction ms as [|m ms IH]; intros floor; [done|].
  cbn [ascending_offsets]. intros [Hm%bool_decide_eq_true Hms]%andb_true_iff.
  rewrite filter_cons. case_decide.
  - rewrite last_cons. destruct (last (filter P ms)) as [b'|] eqn:Hlast.
    + intros [= <-]. specialize (IH _ Hms eq_refl). lia.
    + by intros [= <-].
  - intros Hlast. specialize (IH _ Hms Hlast). lia.
Qed.

Lemma filter_nil_weaken (P Q : Message -> Prop) `{∀ m, Decision (P m)}
    `{∀ m, Decision (Q m)} (ms : list Message) :
  (∀ m, P m -> Q m) ->
  filter Q ms = [] -> filter P ms = [].
Proof.
  intros HPQ. induction ms as [|m ms IH]; [done|].
  destruct (decide (Q m)) as [HQ|HQ].
  - by rewrite filter_cons_True.
  - rewrite filter_cons_False by done. intros Hnil.
    rewrite filter_cons_False by auto. by apply IH.
Qed.

Lemma last_filter_weaken (P Q : Message -> Prop) `{∀ m, Decision (P m)}
    `{∀ m, Decision (Q m)} (ms : list Message) :
  (∀ m, P m -> Q m) ->
  is_Some (last (filter P ms)) -> is_Some (last (filter Q ms)).
Proof.
  intros HPQ. rewrite !last_is_Some. intros Hne Hnil. apply Hne.
  by apply (filter_nil_weaken P Q).
Qed.

Lemma earlier_than_mono m limit1 limit2 :
  limit1 ≤ limit2 -> earlier_than m limit1 = true -> earlier_than m limit2 = true.
Proof.
  unfold earlier_than. intros Hle H1%bool_decide_eq_true.
  apply bool_decide_eq_true. lia.
Qed.

Lemma closest_offset_mono limit1 limit2 floor (ms : list Message) p :
  limit1 ≤ limit2 -> 0 ≤ floor ->
  ascending_offsets floor ms = true ->
  closest_offset earlier_than limit1 ms p ≤ closest_offset earlier_than limit2 ms p.
Proof.
  intros Hle. revert floor. induction ms as [|m ms IH]; intros floor Hfloor; [done|].
  cbn [ascending_offsets]. intros [Hm%bool_decide_eq_true Hms]%andb_true_iff.
  rewrite !closest_offset_cons.
  destruct (last (filter (λ m, _ ∧ earlier_than m limit1 = true) ms)) as [a|] eqn:H1.
  - destruct (last_filter_weaken
                (λ m, msg_partition m = p ∧ earlier_than m limit1 = true)
                (λ m, msg_partition m = p ∧ earlier_than m limit2 = true) ms)
      as [b ->]; [|by rewrite H1|].
    { intros m' [? ?]. eauto using earlier_than_mono. }
    apply (IH (msg_offset m + 1)); [lia|done].
  - destruct (last (filter (λ m, _ ∧ earlier_than m limit2 = true) ms)) as [b|] eqn:H2.
    + pose proof (ascending_last_filter _ _ _ _ Hms H2) as Hb.
      unfold closest_offset at 1. rewrite H2. case_decide; lia.
    + repeat case_decide; try lia.
      match goal with H : ¬ _ |- _ => destruct H end.
      match goal with H : _ ∧ _ |- _ => destruct H end.
      eauto using earlier_than_mono.
Qed.

(** X5.  A later target never gives a smaller offset.  When every consumer
    delivers the messages of its own partition in log order (offsets from 0
    on, increasing), the offset the resolver returns for a partition with
    the later of two targets is at least the one it returns with the
    earlier. *)
Theorem offsets_grow_with_target cluster topic_name limit1 limit2 t topic :
  limit1 ≤ limit2 ->
  get_cluster_topic cluster topic_name = (t, Ok topic) ->
  (∀ p, forallb no_failure (deliveries cluster topic_name p) = true) ->
  (∀ p, own_partition_only p (deliveries cluster topic_name p) = true) ->
  (∀ p, ascending_offsets 0 (messages (polled 5 (deliveries cluster topic_name p))) = true) ->
  ∃ t1 offsets1 t2 offsets2,
    get_offsets_closest_to_timestamp cluster topic_name limit1 = (t1, Ok offsets1) ∧
    get_offsets_closest_to_timestamp cluster topic_name limit2 = (t2, Ok offsets2) ∧
    ∀ part, part ∈ partitions topic ->
      ∃ o1 o2, offsets1 !! partition_id part = Some o1 ∧
               offsets2 !! partition_id part = Some o2 ∧ o1 ≤ o2.
Proof.
  intros Hle Htopic Hquiet Hown Hlog.
  destruct (get_offsets_run cluster topic_name limit1 t topic Htopic) as (t1 & Hrun1).
  { apply Forall_forall. intros p _. apply no_failure_polled, Hquiet. }
  destruct (get_offsets_run cluster topic_name limit2 t topic Htopic) as (t2 & Hrun2).
  { apply Forall_forall. intros p _. apply no_failure_polled, Hquiet. }
  eexists _, _, _, _. split; [exact Hrun1|]. split; [exact Hrun2|].
  intros part Hpart.
  assert (partition_id part ∈ partition_id <$> partitions topic) as Hk
    by (apply list_elem_of_fmap; by exists part).
  assert (∀ limit,
    foldl (record_offset limit)
      (list_to_map ((λ p, (partition_id p, 0)) <$> partitions topic))
      (consumed cluster topic_name (keys_in_order (partition_id <$> partitions topic)))
      !! partition_id part =
    Some (closest_offset earlier_than limit
            (messages (polled 5 (deliveries cluster topic_name (partition_id part))))
            (partition_id part))) as Hvalue.
  { intros limit. rewrite record_offsets_lookup.
    rewrite (filter_consumed_own (λ m, earlier_than m limit = true))
      by (apply keys_in_order_NoDup || (apply Forall_forall; auto)).
    rewrite decide_True by (by apply keys_in_order_elem_of).
    unfold closest_offset. destruct (last _); [done|].
    by apply initial_offsets_lookup. }
  eexists _, _. split; [apply Hvalue|]. split; [apply Hvalue|].
  by apply (closest_offset_mono limit1 limit2 0).
Qed.

Lemma offsets_grow_with_target_witness :
  ∃ t1 offsets1 t2 offsets2,
    get_offsets_closest_to_timestamp example_cluster "orders" 1000000 = (t1, Ok offsets1) ∧
    get_offsets_closest_to_timestamp example_cluster "orders" 3000000 = (t2, Ok offsets2) ∧
    ∃ o1 o2, offsets1 !! 0 = Some o1 ∧ offsets2 !! 0 = Some o2 ∧ o1 ≤ o2.
Proof.
  edestruct (offsets_grow_with_target example_cluster "orders" 1000000 3000000)
    as (t1 & offsets1 & t2 & offsets2 & Hrun1 & Hrun2 & Hle).
  - lia.
  - vm_compute. reflexivity.
  - intros p. cbn. case_decide; reflexivity.
  - intros p. cbn. case_decide; [subst p|]; reflexivity.
  - intros p. cbn. case_decide; reflexivity.
  - exists t1, offsets1, t2, offsets2. split; [exact Hrun1|]. split; [exact Hrun2|].
    apply (Hle {| partition_id := 0; low_watermark := 0; high_watermark := 2;
                  partition_isrs := [1]; partition_leader := 1;
                  partition_replicas := [1];
                  latest_message_timestamp := Some (2500 # 1000)%Q |}).
    left.
Defined.

Lemma earlier_than_whole_second m seconds :
  0 ≤ msg_timestamp m ->
  earlier_than m (seconds * 1000000) = strictly_earlier m (seconds * 1000000).
Proof.
  intros Hts. unfold earlier_than, strictly_earlier.
  rewrite Z.quot_div_nonneg by lia.
  pose proof (Z.div_mod (msg_timestamp m) 1000 ltac:(lia)) as Hdiv.
  pose proof (Z.mod_pos_bound (msg_timestamp m) 1000 ltac:(lia)) as Hmod.
  apply bool_decide_ext. lia.
Qed.

Lemma closest_offset_ext earlier1 earlier2 limit (ms : list Message) p :
  Forall (λ m, earlier1 m limit = earlier2 m limit) ms ->
  closest_offset earlier1 limit ms p = closest_offset earlier2 limit ms p.
Proof.
  intros Hms. unfold closest_offset.
  enough (filter (λ m, msg_partition m = p ∧ earlier1 m limit = true) ms =
          filter (λ m, msg_partition m = p ∧ earlier2 m limit = true) ms) as -> by done.
  induction Hms as [|m ms Hm _ IH]; [done|].
  rewrite !filter_cons, IH, Hm. by repeat case_decide.
Qed.

(** X6.  The cut to whole seconds matters only for a target that is not on
    a second.  When the target is a whole number of seconds and the
    timestamps of the consumed messages are not negative, the resolver
    returns for every partition one past the last consumed message of that
    partition whose timestamp in milliseconds is strictly before the target,
    and 0 when there is none. *)
Theorem whole_second_target_is_exact cluster topic_name seconds t topic :
  get_cluster_topic cluster topic_name = (t, Ok topic) ->
  let keys := keys_in_order (partition_id <$> partitions topic) in
  (∀ p, forallb no_failure (deliveries cluster topic_name p) = true) ->
  Forall (λ m, 0 ≤ msg_timestamp m) (consumed cluster topic_name keys) ->
  ∃ t' offsets,
    get_offsets_closest_to_timestamp cluster topic_name (seconds * 1000000)
      = (t', Ok offsets) ∧
    ∀ part, part ∈ partitions topic ->
      offsets !! partition_id part =
        Some (closest_offset strictly_earlier (seconds * 1000000)
                (consumed cluster topic_name keys) (partition_id part)).
Proof.
  intros Htopic keys Hquiet Hts.
  destruct (get_offsets_run cluster topic_name (seconds * 1000000) t topic Htopic)
    as (t' & Hrun).
  { apply Forall_forall. intros p _. apply no_failure_polled, Hquiet. }
  eexists _, _. split; [exact Hrun|]. intros part Hpart.
  rewrite <- (closest_offset_ext earlier_than strictly_earlier)
    by (eapply Forall_impl; [exact Hts|]; intros m; apply earlier_than_whole_second).
  rewrite record_offsets_lookup. unfold closest_offset.
  destruct (last _); [done|].
  apply initial_offsets_lookup, list_elem_of_fmap. by exists part.
Qed.

Lemma whole_second_target_is_exact_witness :
  ∃ t' offsets,
    get_offsets_closest_to_timestamp example_cluster "orders" (2 * 1000000)
      = (t', Ok offsets) ∧
    offsets !! 0 = Some 1.
Proof.
  edestruct (whole_second_target_is_exact example_cluster "orders" 2)
    as (t' & offsets & Hrun & Hoffsets).
  - vm_compute. reflexivity.
  - intros p. cbn. case_decide; reflexivity.
  - vm_compute. repeat constructor; discriminate.
  - exists t', offsets. split; [exact Hrun|].
    exact (Hoffsets {| partition_id := 0; low_watermark := 0; high_watermark := 2;
                       partition_isrs := [1]; partition_leader := 1;
                       partition_replicas := [1];
                       latest_message_timestamp := Some (2500 # 1000)%Q |}
             (list_elem_of_here _ _)).
Defined.

(** ** The calls of the resolver *)

Lemma polls_bounds n (c : consumer) :
  1 ≤ n ->
  (1 <= length (polled n c) + quiet_timeouts n c <= length c + Z.to_nat n)%nat.
Proof.
  revert n. induction c as [|[m| | |e] c IH]; intros n Hn; cbn; try lia.
  - specialize (IH n Hn). lia.
  - case_bool_decide; [cbn; lia|]. specialize (IH (n - 1) ltac:(lia)). lia.
Qed.

Lemma get_offsets_trace cluster topic_name limit t topic :
  get_cluster_topic cluster topic_name = (t, Ok topic) ->
  let keys := keys_in_order (partition_id <$> partitions topic) in
  Forall (λ p, failure (polled 5 (deliveries cluster topic_name p)) = None) keys ->
  trace (get_offsets_closest_to_timestamp cluster topic_name limit) =
    t ++ (AssignSpecificPartitions topic_name <$> keys) ++
    concat ((λ p, replicate (polls (deliveries cluster topic_name p)) (poll_event p))
              <$> keys).
Proof.
  intros Htopic keys Hkeys.
  unfold get_offsets_closest_to_timestamp. rewrite Htopic, bind_Ok.
  cbn [fst snd]. fold keys. rewrite mapM_call, bind_Ok. cbn [fst snd].
  rewrite scan_consumers_run by (by apply Forall_fmap).
  cbn [trace fst snd]. by rewrite <- !list_fmap_compose.
Qed.

(** X7.  A resolver run that meets no exception makes its calls in three
    stages: first the fetch of the topic, then one partition assignment for
    each distinct partition id of the topic, and only then the polls,
    consumer after consumer.  Every consumer is polled at least once and at
    most five times more often than it has answers to give, so the run is
    bounded by what the partitions hold. *)
Theorem resolver_assigns_then_polls cluster topic_name limit t topic :
  get_cluster_topic cluster topic_name = (t, Ok topic) ->
  (∀ p, forallb no_failure (deliveries cluster topic_name p) = true) ->
  ∃ keys,
    NoDup keys ∧
    (∀ k, k ∈ keys ↔ k ∈ partition_id <$> partitions topic) ∧
    trace (get_offsets_closest_to_timestamp cluster topic_name limit) =
      t ++ (AssignSpecificPartitions topic_name <$> keys) ++
      concat ((λ p, replicate (polls (deliveries cluster topic_name p))
                              (ConsumeSingleMessage p 10)) <$> keys) ∧
    ∀ p, (1 <= polls (deliveries cluster topic_name p)
            <= length (deliveries cluster topic_name p) + 5)%nat.
Proof.
  intros Htopic Hquiet.
  exists (keys_in_order (partition_id <$> partitions topic)).
  split; [apply keys_in_order_NoDup|]. split; [apply keys_in_order_elem_of|].
  split.
  - apply get_offsets_trace; [done|].
    apply Forall_forall. intros p _. apply no_failure_polled, Hquiet.
  - intros p. apply (polls_bounds 5). lia.
Qed.

Lemma resolver_assigns_then_polls_witness :
  ∃ t keys,
    NoDup keys ∧
    trace (get_offsets_closest_to_timestamp example_cluster "orders" 0) =
      t ++ (AssignSpecificPartitions "orders" <$> keys) ++
      concat ((λ p, replicate (polls (deliveries example_cluster "orders" p))
                              (ConsumeSingleMessage p 10)) <$> keys).
Proof.
  eexists.
  edestruct (resolver_assigns_then_polls example_cluster "orders" 0)
    as (keys & Hnodup & _ & Htrace & _).
  - vm_compute. reflexivity.
  - intros p. cbn. case_decide; reflexivity.
  - exists keys. split; [exact Hnodup|exact Htrace].
Defined.

Example example_resolver_trace :
  trace (get_offsets_closest_to_timestamp example_cluster "orders" 0) =
    [ListTopics (Some "orders") (Some 10); ListTopics (Some "orders") (Some 10);
     EarliestAvailableOffsets "orders"; LatestAvailableOffsets "orders";
     Consume "orders" 1 0; RetrieveConfig "orders";
     AssignSpecificPartitions "orders" 0; AssignSpecificPartitions "orders" 1]
    ++ replicate 4 (ConsumeSingleMessage 0 10)
    ++ replicate 5 (ConsumeSingleMessage 1 10).
Proof. vm_compute. reflexivity. Qed.

(** ** An exception of a consumer *)

Lemma scan_consumers_raise limit (pre : list (Z * consumer)) p c post offs e :
  Forall (λ pc, failure (polled 5 pc.2) = None) pre ->
  failure (polled 5 c) = Some e ->
  outcome (scan_consumers limit (pre ++ (p, c) :: post) offs) = Raise e.
Proof.
  intros Hpre Hc. revert offs.
  induction Hpre as [|[q d] pre Hd _ IH]; intros offs;
    cbn [scan_consumers app].
  - fold (start_scan c 5 offs).
    destruct (poll_partition_run limit p c 5 offs ltac:(lia)) as (r & -> & Hr).
    rewrite Hc in Hr. by subst r.
  - fold (start_scan d 5 offs).
    destruct (poll_partition_run limit q d 5 offs ltac:(lia)) as (r & -> & Hr).
    cbn [snd] in Hd. rewrite Hd in Hr. destruct Hr as (s & -> & _).
    rewrite bind_Ok. cbn [outcome snd]. apply IH.
Qed.

(** X8.  The resolver handles the timeout and the end of a partition and
    nothing else.  When the consumers of the partitions scanned first meet
    no other exception and the consumer of the next partition raises one
    before its scan has stopped, the resolver raises that exception and
    returns no offsets, whatever the remaining partitions hold. *)
Theorem resolver_passes_on_other_exceptions cluster topic_name limit t topic
    pre p post e :
  get_cluster_topic cluster topic_name = (t, Ok topic) ->
  keys_in_order (partition_id <$> partitions topic) = pre ++ p :: post ->
  Forall (λ q, failure (polled 5 (deliveries cluster topic_name q)) = None) pre ->
  failure (polled 5 (deliveries cluster topic_name p)) = Some e ->
  outcome (get_offsets_closest_to_timestamp cluster topic_name limit) = Raise e.
Proof.
  intros Htopic Hkeys Hpre Hp.
  unfold get_offsets_closest_to_timestamp. rewrite Htopic, bind_Ok.
  cbn [fst snd]. rewrite Hkeys, mapM_call, bind_Ok. cbn [outcome fst snd].
  rewrite fmap_app, fmap_cons.
  apply (scan_consumers_raise limit); [|done].
  by apply Forall_fmap.
Qed.

Lemma resolver_passes_on_other_exceptions_witness :
  outcome (get_offsets_closest_to_timestamp failing_cluster "orders" 5000000) =
    Raise (KafkaException 7).
Proof.
  eapply (resolver_passes_on_other_exceptions failing_cluster "orders" 5000000
            _ _ [0] 1 []).
  - vm_compute. reflexivity.
  - vm_compute. reflexivity.
  - repeat constructor.
  - reflexivity.
Defined.

(** ** Altering configurations *)

(** X9.  [alter_configs] sends one alteration per topic, in order, each with
    the name and the configuration of its topic, and waits for its future
    before the next.  When all futures complete well every topic has been
    altered and the call returns.  When the future of a topic does not, the
    alteration of that topic is the last one sent, the topics after it are
    left as they are, and the call raises, in both cases after the cache has
    been invalidated. *)
Theorem alter_requests_stop_at_failure cluster :
  let future_of topic := alter_configs_future cluster (name topic) (config topic) in
  let request topic := AlterConfigs (name topic) (config topic) in
  (∀ topics,
     Forall (λ topic, future_of topic = Done) topics ->
     alter_configs cluster topics = ((request <$> topics) ++ [InvalidateCache], Ok tt)) ∧
  (∀ pre topic post,
     Forall (λ topic, future_of topic = Done) pre ->
     future_of topic ≠ Done ->
     trace (alter_configs cluster (pre ++ topic :: post)) =
       (request <$> pre ++ [topic]) ++ [InvalidateCache] ∧
     outcome (alter_configs cluster (pre ++ topic :: post)) =
       match future_of topic with
       | Failed code => Raise (AdminOperationFailedError code)
       | _ => Raise CompletionTimeoutError
       end).
Proof.
  intros future_of request. split.
  - intros topics Hdone. rewrite (alter_configs_run cluster example_config).
    cbn [futures_of]. fold future_of. rewrite submitted_all by done.
    induction Hdone as [|topic topics Hd _ IH]; [done|].
    cbn [fmap list_fmap first_failure]. rewrite Hd.
    injection IH as IH. by rewrite IH.
  - intros pre topic post Hpre Hfailed.
    rewrite (alter_configs_run cluster example_config). cbn [futures_of trace outcome fst snd].
    fold future_of.
    rewrite submitted_prefix, first_failure_prefix by done.
    cbn [fmap list_fmap first_failure]. split; [done|].
    by destruct (future_of topic).
Qed.

Lemma alter_requests_stop_at_failure_witness :
  trace (alter_configs example_cluster
           ([new_Topic "orders"] ++ new_Topic "broken" :: [new_Topic "audit"])) =
    ((λ topic, AlterConfigs (name topic) (config topic)) <$>
       [new_Topic "orders"] ++ [new_Topic "broken"]) ++ [InvalidateCache] ∧
  outcome (alter_configs example_cluster
             ([new_Topic "orders"] ++ new_Topic "broken" :: [new_Topic "audit"])) =
    Raise CompletionTimeoutError.
Proof.
  apply (alter_requests_stop_at_failure example_cluster).
  - repeat constructor.
  - discriminate.
Defined.

(** ** The listing *)

Lemma listed_names_subseteq cluster re_match search sort hide n :
  n ∈ listed_names cluster re_match search sort hide -> n ∈ cluster_topics cluster.
Proof.
  rewrite listed_names_sorted.
  assert (n ∈ listed_names cluster re_match search false hide -> n ∈ cluster_topics cluster)
    as Hunsorted.
  { unfold listed_names. destruct search as [pattern|], hide;
      try destruct (decide (pattern = ""));
      rewrite ?list_elem_of_filter; tauto. }
  destruct sort; [|done]. by rewrite merge_sort_Permutation.
Qed.

Lemma listed_names_NoDup cluster re_match search sort hide :
  NoDup (cluster_topics cluster) ->
  NoDup (listed_names cluster re_match search sort hide).
Proof.
  intros Hnodup. rewrite listed_names_sorted.
  assert (NoDup (listed_names cluster re_match search false hide)) as Hunsorted.
  { unfold listed_names. destruct search as [pattern|], hide;
      try destruct (decide (pattern = "")); auto using NoDup_filter. }
  destruct sort; [|done]. by rewrite merge_sort_Permutation.
Qed.

Lemma list_topics_names cluster re_match search sort hide objects t ts :
  list_topics cluster re_match search sort hide objects = (t, Ok ts) ->
  name <$> ts = listed_names cluster re_match search sort hide.
Proof.
  unfold list_topics. intros H.
  apply bind_Ok_inv in H as (? & ? & ? & _ & H & _).
  apply bind_Ok_inv in H as (? & ? & ? & _ & H & _).
  destruct objects.
  - by eapply get_cluster_topics_names.
  - rewrite get_local_topics_run in H. injection H as _ <-.
    rewrite <- list_fmap_compose. by apply list_fmap_id.
Qed.

(** X10.  [list_topics] returns topics of the cluster only, and none of
    them twice: every returned topic bears a name the cluster listed, and
    when the cluster lists no name twice (it lists the keys of a dictionary)
    the returned names are pairwise different, so there are at most as many
    topics as names listed. *)
Theorem listing_has_no_strangers cluster re_match search sort hide objects t ts :
  list_topics cluster re_match search sort hide objects = (t, Ok ts) ->
  NoDup (cluster_topics cluster) ->
  (∀ topic, topic ∈ ts -> name topic ∈ cluster_topics cluster) ∧
  NoDup (name <$> ts) ∧
  (length ts <= length (cluster_topics cluster))%nat.
Proof.
  intros Hnames%list_topics_names Hnodup.
  assert (name <$> ts ⊆ cluster_topics cluster) as Hsub.
  { intros n. rewrite Hnames. apply listed_names_subseteq. }
  assert (NoDup (name <$> ts)) as Hts
    by (rewrite Hnames; by apply listed_names_NoDup).
  repeat split; [|done|].
  - intros topic Htopic. apply Hsub, list_elem_of_fmap. by exists topic.
  - rewrite <- (length_fmap name ts). by apply submseteq_length, NoDup_submseteq.
Qed.

Lemma listing_has_no_strangers_witness :
  ∃ t ts,
    list_topics example_cluster String.prefix None true false false = (t, Ok ts) ∧
    NoDup (name <$> ts) ∧ (length ts <= 3)%nat.
Proof.
  eexists _, _. split; [vm_compute; reflexivity|].
  edestruct (listing_has_no_strangers example_cluster String.prefix None true false false)
    as (_ & Hnodup & Hlen).
  - vm_compute. reflexivity.
  - cbn [cluster_topics example_cluster].
    repeat (constructor;
            [rewrite ?elem_of_cons, ?elem_of_nil; intuition discriminate|]).
    constructor.
  - split; [exact Hnodup|exact Hlen].
Defined.

(** X11.  A sorted listing does not depend on the order in which the
    cluster lists its topics: two clusters that list the same names, in
    whatever order, give the same sorted names under the same pattern and
    the same choice about internal topics. *)
Theorem sorted_listing_ignores_cluster_order cluster1 cluster2 re_match search hide :
  cluster_topics cluster1 ≡ₚ cluster_topics cluster2 ->
  listed_names cluster1 re_match search true hide =
    listed_names cluster2 re_match search true hide.
Proof.
  intros Hperm. apply (Sorted_unique String.le).
  - apply Sorted_merge_sort, _.
  - apply Sorted_merge_sort, _.
  - unfold listed_names. rewrite !merge_sort_Permutation.
    destruct search as [pattern|], hide;
      try destruct (decide (pattern = ""));
      repeat apply filter_Permutation; exact Hperm.
Qed.

Lemma sorted_listing_ignores_cluster_order_witness :
  listed_names example_cluster String.prefix None true true =
    listed_names failing_cluster String.prefix None true true.
Proof.
  apply sorted_listing_ignores_cluster_order.
  cbn [cluster_topics example_cluster failing_cluster].
  apply (Permutation_app_comm ["orders"; "__consumer_offsets"] ["audit"]).
Defined.

(** X12.  [list_topics] returns all the topics it was to fetch or none.
    When the fetch of a kept name raises an exception (the topic may have
    gone since the names were listed) and the names before it could be
    fetched, the listing raises that exception; the names after it are not
    fetched. *)
Theorem listing_fails_with_first_fetch cluster re_match search sort hide pre n post e :
  listed_names cluster re_match search sort hide = pre ++ n :: post ->
  Forall (λ m, ∃ t topic, get_cluster_topic cluster m = (t, Ok topic)) pre ->
  outcome (get_cluster_topic cluster n) = Raise e ->
  outcome (list_topics cluster re_match search sort hide true) = Raise e ∧
  Forall (λ ev, ∀ m, event_topic ev = Some m -> m ∈ pre ++ [n])
         (trace (list_topics cluster re_match search sort hide true)).
Proof.
  intros Hnames Hpre Hn. unfold list_topics. rewrite Hnames.
  destruct (mapM_total _ _ Hpre) as (ts & topics & Hfetched).
  destruct (get_cluster_topic cluster n) as [tn r] eqn:Hfetch.
  cbn [outcome snd] in Hn. subst r.
  pose proof (mapM_raise _ _ _ post _ _ _ _ Hfetched Hfetch) as Hall.
  rewrite Hall. split; [reflexivity|].
  unfold call, trace. run_M. do 2 (constructor; [done|]).
  apply Forall_app. split.
  - pose proof (get_cluster_topics_trace cluster pre) as Hts.
    rewrite Hfetched in Hts. cbn [trace fst] in Hts.
    eapply Forall_impl; [exact Hts|]. cbn. intros ev Hev m Hm.
    apply elem_of_app. left. by apply Hev.
  - pose proof (update_from_cluster_trace cluster (new_Topic n)) as Htn.
    fold (get_cluster_topic cluster n) in Htn. rewrite Hfetch in Htn.
    cbn [trace fst name new_Topic] in Htn.
    eapply Forall_impl; [exact Htn|]. cbn. intros ev -> m [= <-].
    apply elem_of_app. right. by left.
Qed.

Lemma listing_fails_with_first_fetch_witness :
  outcome (list_topics example_cluster String.prefix (Some "") true true true) =
    Raise (TopicNotFoundError 3).
Proof.
  apply (listing_fails_with_first_fetch example_cluster String.prefix (Some "")
           true true [] "audit" ["orders"]).
  - vm_compute. reflexivity.
  - constructor.
  - vm_compute. reflexivity.
Defined.

(** ** Keys the cluster does not know *)

(** X13.  [diff_with_cluster] looks only at the keys of the cluster's
    configuration.  A configuration key that the local topic declares and
    the cluster does not report has no part in the diff: setting it to any
    value, or dropping it, gives the same calls and the same diff. *)
Theorem diff_ignores_keys_unknown_to_cluster cluster local t cluster_topic k :
  is_only_local local = true ->
  get_cluster_topic cluster (name local) = (t, Ok cluster_topic) ->
  config cluster_topic !! k = None ->
  (∀ v, diff_with_cluster cluster (with_config local (<[k := v]> (config local))) =
        diff_with_cluster cluster local) ∧
  diff_with_cluster cluster (with_config local (delete k (config local))) =
    diff_with_cluster cluster local.
Proof.
  intros Hlocal Hfetch Hk.
  destruct (diff_with_cluster_run cluster local t cluster_topic Hlocal Hfetch)
    as (diffs & -> & Hdiffs).
  assert (∀ cfg, (∀ j, j ≠ k -> cfg !! j = config local !! j) ->
            diff_with_cluster cluster (with_config local cfg) = (t, Ok diffs)) as Hsame.
  { intros cfg Hcfg.
    destruct (diff_with_cluster_run cluster (with_config local cfg) t cluster_topic
                Hlocal Hfetch) as (diffs' & -> & Hdiffs').
    do 2 f_equal. apply map_eq. intros j. rewrite Hdiffs, Hdiffs'.
    cbn [config with_config].
    change (count_diffs cluster_topic (with_config local cfg))
      with (count_diffs cluster_topic local).
    destruct (config cluster_topic !! j) as [v|] eqn:Hj; [|done].
    rewrite Hcfg; [done|]. intros ->. congruence. }
  split.
  - intros v. apply Hsame. intros j Hj. by rewrite lookup_insert_ne.
  - apply Hsame. intros j Hj. by rewrite lookup_delete_ne.
Qed.

Lemma diff_ignores_keys_unknown_to_cluster_witness :
  diff_with_cluster example_cluster
      (with_config (new_Topic "orders") (<[ "colour" := "blue" ]> ∅)) =
    diff_with_cluster example_cluster (new_Topic "orders").
Proof.
  eassert (get_cluster_topic example_cluster (name (new_Topic "orders")) = (_, Ok _))
    as Hfetch by (vm_compute; reflexivity).
  destruct (diff_ignores_keys_unknown_to_cluster example_cluster (new_Topic "orders")
              _ _ "colour" eq_refl Hfetch) as [Hset _].
  - vm_compute. reflexivity.
  - exact (Hset "blue").
Defined.

(** ** Partitions without messages, and the end of a partition *)

Lemma silent_polled n (c : consumer) :
  silent c = true -> messages (polled n c) = [] ∧ failure (polled n c) = None.
Proof.
  unfold silent. revert n. induction c as [|[m| | |e] c IH]; intros n; cbn; try done.
  intros Hc. case_bool_decide; [done|]. by apply IH.
Qed.

(** X14.  For a topic none of whose partitions delivers a message (each
    consumer only times out or reports the end of its partition) the
    resolver returns the mapping of every partition id of the topic to 0,
    whatever the target is. *)
Theorem silent_topic_gives_zero_offsets cluster topic_name limit t topic :
  get_cluster_topic cluster topic_name = (t, Ok topic) ->
  (∀ p, silent (deliveries cluster topic_name p) = true) ->
  outcome (get_offsets_closest_to_timestamp cluster topic_name limit) =
    Ok (list_to_map ((λ part, (partition_id part, 0)) <$> partitions topic)).
Proof.
  intros Htopic Hsilent.
  destruct (get_offsets_run cluster topic_name limit t topic Htopic) as (t' & ->).
  { apply Forall_forall. intros p _. by apply silent_polled. }
  cbn [outcome snd]. f_equal. unfold consumed.
  induction (keys_in_order (partition_id <$> partitions topic)) as [|k keys IH]; [done|].
  cbn [fmap list_fmap concat].
  destruct (silent_polled 5 _ (Hsilent k)) as [-> _]. exact IH.
Qed.

Lemma silent_topic_gives_zero_offsets_witness :
  outcome (get_offsets_closest_to_timestamp silent_cluster "orders" 5000000) =
    Ok {[ 0 := 0; 1 := 0 ]}.
Proof.
  eassert (get_cluster_topic silent_cluster "orders" = (_, Ok _)) as Hfetch
    by (vm_compute; reflexivity).
  rewrite (silent_topic_gives_zero_offsets silent_cluster "orders" 5000000 _ _ Hfetch).
  - vm_compute. reflexivity.
  - intros p. cbn. case_decide; reflexivity.
Defined.

Lemma poll_partition_end limit p (pre rest : consumer) n offs :
  forallb message_or_timeout pre = true ->
  Z.of_nat (timeouts pre) < n ->
  poll_partition limit p
      (start_scan (pre ++ EndOfPartitionReachedException :: rest) n offs) =
    (replicate (S (length pre)) (poll_event p),
     Ok {| scan_consumer := rest;
           max_retry_count := n - Z.of_nat (timeouts pre);
           keep_polling_current_partition := false;
           partition_offsets :=
             foldl (record_offset limit) offs (messages pre) |}).
Proof.
  revert n offs. induction pre as [|[m| | |e] pre IH]; intros n offs Hpre Hcount;
    cbn in Hpre, Hcount; try done.
  - step_scan. rewrite poll_partition_step. cbn. by rewrite Z.sub_0_r.
  - step_scan. fold (record_offset limit offs m).
    fold (start_scan (pre ++ EndOfPartitionReachedException :: rest) n
            (record_offset limit offs m)).
    by rewrite IH.
  - step_scan. rewrite bool_decide_eq_false_2 by lia.
    fold (start_scan (pre ++ EndOfPartitionReachedException :: rest) (n - 1) offs).
    rewrite IH by (done || lia). cbn [timeouts replicate length].
    do 3 f_equal. lia.
Qed.

(** X15.  The end of a partition stops its scan at once, with budget to
    spare.  When the answers of a consumer before the signal are messages
    and fewer than five timeouts, the scan polls exactly up to the signal
    and stops: the budget is left at 5 less the timeouts met, nothing after
    the signal is consumed, and the offsets are those recorded from the
    messages before it. *)
Theorem end_of_partition_stops_scan limit p (pre rest : consumer) offs :
  forallb message_or_timeout pre = true ->
  (timeouts pre < 5)%nat ->
  poll_partition limit p
      (start_scan (pre ++ EndOfPartitionReachedException :: rest) 5 offs) =
    (replicate (S (length pre)) (ConsumeSingleMessage p 10),
     Ok {| scan_consumer := rest;
           max_retry_count := 5 - Z.of_nat (timeouts pre);
           keep_polling_current_partition := false;
           partition_offsets :=
             foldl (record_offset limit) offs (messages pre) |}).
Proof. intros Hpre Hcount. apply poll_partition_end; [done|lia]. Qed.

Lemma end_of_partition_stops_scan_witness :
  let m := Delivered (example_message 0 3 1000) in
  let late := Delivered (example_message 0 4 1000) in
  poll_partition 5000000 0
      (start_scan ([MessageEmptyException; m; MessageEmptyException]
                     ++ EndOfPartitionReachedException :: [late]) 5 ∅) =
    (replicate 4 (ConsumeSingleMessage 0 10),
     Ok {| scan_consumer := [late]; max_retry_count := 3;
           keep_polling_current_partition := false;
           partition_offsets := {[ 0 := 4 ]} |}).
Proof.
  intros m late.
  exact (end_of_partition_stops_scan 5000000 0
           [MessageEmptyException; m; MessageEmptyException] [late] ∅
           eq_refl ltac:(cbn; lia)).
Defined.

(** * The retry budget, seen from the resolver *)

Lemma polls_of_app p (l1 l2 : list event) :
  polls_of p (l1 ++ l2) = (polls_of p l1 + polls_of p l2)%nat.
Proof. unfold polls_of. by rewrite filter_app, length_app. Qed.

Lemma polls_of_topic_calls p topic_name (calls : list event) :
  Forall (λ e, event_topic e = Some topic_name) calls -> polls_of p calls = 0%nat.
Proof.
  unfold polls_of. induction 1 as [|e calls He _ IH]; [done|].
  rewrite filter_cons_False; [done|]. by destruct e.
Qed.

Lemma polls_of_assignments p topic_name (keys : list Z) :
  polls_of p (AssignSpecificPartitions topic_name <$> keys) = 0%nat.
Proof.
  apply (polls_of_topic_calls p topic_name), Forall_fmap, Forall_true. done.
Qed.

Lemma polls_of_replicate p q (k : nat) :
  polls_of p (replicate k (ConsumeSingleMessage q 10)) =
    if decide (q = p) then k else 0%nat.
Proof.
  unfold polls_of. induction k as [|k IH]; cbn [replicate]; [by case_decide|].
  case_decide.
  - rewrite filter_cons_True by (by apply bool_decide_eq_true). cbn [length].
    by rewrite IH.
  - rewrite filter_cons_False; [done|]. cbn. by rewrite bool_decide_eq_false_2.
Qed.

Lemma polls_of_scans p (count : Z -> nat) (keys : list Z) :
  NoDup keys -> p ∈ keys ->
  polls_of p (concat ((λ q, replicate (count q) (ConsumeSingleMessage q 10)) <$> keys))
    = count p.
Proof.
  induction 1 as [|q keys Hq _ IH]; [by intros ?%elem_of_nil|].
  cbn [fmap list_fmap concat]. rewrite polls_of_app, polls_of_replicate.
  intros [->|Hp]%elem_of_cons.
  - rewrite decide_True by done.
    enough (polls_of q (concat ((λ q, replicate (count q) (ConsumeSingleMessage q 10))
                                  <$> keys)) = 0%nat) as -> by lia.
    clear IH. induction keys as [|k keys IH]; [done|].
    cbn [fmap list_fmap concat]. rewrite polls_of_app, polls_of_replicate.
    rewrite decide_False by (intros ->; apply Hq; by left).
    apply IH. intros ?. apply Hq. by right.
  - rewrite decide_False by (intros ->; done). by rewrite IH.
Qed.

(** What the resolver does with the consumers of a fetched topic: it
    returns, and in its trace every partition of the topic is polled as
    often as the loop of its own consumer, started with a budget of 5,
    polls. *)
Lemma resolver_polls cluster topic_name limit t topic :
  get_cluster_topic cluster topic_name = (t, Ok topic) ->
  (∀ p, forallb no_failure (deliveries cluster topic_name p) = true) ->
  ∃ t' offsets,
    get_offsets_closest_to_timestamp cluster topic_name limit = (t', Ok offsets) ∧
    ∀ part, part ∈ partitions topic ->
      polls_of (partition_id part) t' =
        polls (deliveries cluster topic_name (partition_id part)).
Proof.
  intros Htopic Hquiet.
  assert (Forall (λ p, failure (polled 5 (deliveries cluster topic_name p)) = None)
            (keys_in_order (partition_id <$> partitions topic))) as Hkeys.
  { apply Forall_forall. intros p _. apply no_failure_polled, Hquiet. }
  destruct (get_offsets_run cluster topic_name limit t topic Htopic Hkeys) as (t' & Hrun).
  pose proof (get_offsets_trace cluster topic_name limit t topic Htopic Hkeys) as Htrace.
  rewrite Hrun in Htrace. cbn [trace fst] in Htrace. subst t'.
  eexists _, _. split; [exact Hrun|]. intros part Hpart.
  rewrite !polls_of_app, polls_of_assignments.
  rewrite (polls_of_topic_calls _ topic_name).
  - apply (polls_of_scans (partition_id part)
             (λ q, polls (deliveries cluster topic_name q)));
      [apply keys_in_order_NoDup|].
    apply keys_in_order_elem_of, list_elem_of_fmap. by exists part.
  - pose proof (update_from_cluster_trace cluster (new_Topic topic_name)) as Hfetch.
    fold (get_cluster_topic cluster topic_name) in Hfetch.
    by rewrite Htopic in Hfetch.
Qed.

Lemma polls_of_scan limit p (c : consumer) offs (k : nat) r :
  poll_partition limit p (start_scan c 5 offs) = (replicate k (poll_event p), r) ->
  polls c = k.
Proof.
  destruct (poll_partition_run limit p c 5 offs ltac:(lia)) as (r' & -> & _).
  intros [= Hk _]. apply (f_equal length) in Hk.
  by rewrite !length_replicate in Hk.
Qed.

Lemma polls_quiet (k : nat) : polls (replicate k MessageEmptyException) = 5%nat.
Proof.
  apply (polls_of_scan 0 0 _ ∅ 5 _ (poll_partition_timeouts 0 0 k 5 ∅ ltac:(lia))).
Qed.

Lemma polls_until_end (pre rest : consumer) :
  forallb message_or_timeout pre = true ->
  (timeouts pre < 5)%nat ->
  polls (pre ++ EndOfPartitionReachedException :: rest) = S (length pre).
Proof.
  intros Hpre Hcount.
  apply (polls_of_scan 0 0 _ ∅ _ _
           (poll_partition_end 0 0 pre rest 5 ∅ Hpre ltac:(lia))).
Qed.

Lemma polls_until_fifth_timeout (pre rest : consumer) :
  forallb message_or_timeout pre = true ->
  timeouts pre = 4%nat ->
  polls (pre ++ MessageEmptyException :: rest) = S (length pre).
Proof.
  intros Hpre Hcount.
  apply (polls_of_scan 0 0 _ ∅ _ _
           (poll_partition_budget 0 0 pre rest 5 ∅ ltac:(lia) Hpre ltac:(lia))).
Qed.

(** C2.  [get_offsets_closest_to_timestamp] never raises for a quiet
    partition.  Once the topic has been fetched and no consumer raises
    anything but the two signals, the call returns its mapping, and in its
    trace every partition has its own budget of 5: a partition whose
    consumer only times out is polled exactly five times, however many
    timeouts it would still give and however the other partitions fared, and
    then left without an exception; a partition whose consumer reports the
    end of the partition, after messages and fewer than five timeouts, is
    polled exactly up to that signal and then left, again without an
    exception. *)
Theorem resolver_stops_quiet_partitions cluster topic_name limit t topic :
  get_cluster_topic cluster topic_name = (t, Ok topic) ->
  (∀ p, forallb no_failure (deliveries cluster topic_name p) = true) ->
  ∃ t' offsets,
    get_offsets_closest_to_timestamp cluster topic_name limit = (t', Ok offsets) ∧
    ∀ part, part ∈ partitions topic ->
      (∀ k, deliveries cluster topic_name (partition_id part)
              = replicate k MessageEmptyException ->
            polls_of (partition_id part) t' = 5%nat) ∧
      (∀ pre rest,
         deliveries cluster topic_name (partition_id part)
           = pre ++ EndOfPartitionReachedException :: rest ->
         forallb message_or_timeout pre = true ->
         (timeouts pre < 5)%nat ->
         polls_of (partition_id part) t' = S (length pre)).
Proof.
  intros Htopic Hquiet.
  destruct (resolver_polls cluster topic_name limit t topic Htopic Hquiet)
    as (t' & offsets & Hrun & Hpolls).
  exists t', offsets. split; [exact Hrun|]. intros part Hpart. split.
  - intros k Hk. rewrite (Hpolls part Hpart), Hk. apply polls_quiet.
  - intros pre rest Hp Hpre Hcount. rewrite (Hpolls part Hpart), Hp.
    by apply polls_until_end.
Qed.

Lemma resolver_stops_quiet_partitions_witness :
  ∃ t' offsets,
    get_offsets_closest_to_timestamp flaky_cluster "orders" 5000000 = (t', Ok offsets) ∧
    polls_of 1 t' = 5%nat.
Proof.
  eassert (get_cluster_topic flaky_cluster "orders" = (_, Ok _)) as Hfetch
    by (vm_compute; reflexivity).
  destruct (resolver_stops_quiet_partitions flaky_cluster "orders" 5000000 _ _ Hfetch)
    as (t' & offsets & Hrun & Hparts).
  - intros p. cbn. case_decide; reflexivity.
  - exists t', offsets. split; [exact Hrun|].
    refine (proj1 (Hparts {| partition_id := 1; low_watermark := 0; high_watermark := 0;
                             partition_isrs := [1]; partition_leader := 1;
                             partition_replicas := [1];
                             latest_message_timestamp := None |} _) 7%nat eq_refl).
    right. left.
Defined.

Example example_polls_per_partition :
  let calls := trace (get_offsets_closest_to_timestamp example_cluster "orders" 0) in
  polls_of 0 calls = 4%nat ∧ polls_of 1 calls = 5%nat ∧
  let calls := trace (get_offsets_closest_to_timestamp flaky_cluster "orders" 0) in
  polls_of 0 calls = 7%nat ∧ polls_of 1 calls = 5%nat.
Proof. vm_compute. done. Qed.

Lemma polled_until_fifth_timeout n (pre rest : consumer) :
  forallb message_or_timeout pre = true ->
  Z.of_nat (timeouts pre) = n - 1 ->
  polled n (pre ++ MessageEmptyException :: rest) = pre ++ [MessageEmptyException].
Proof.
  revert n. induction pre as [|[m| | |e] pre IH]; intros n Hpre Hcount;
    cbn in Hpre, Hcount |- *; try done.
  - by rewrite bool_decide_eq_true_2 by lia.
  - by rewrite IH.
  - rewrite bool_decide_eq_false_2 by lia. rewrite IH by (done || lia). done.
Qed.

Lemma messages_app (l1 l2 : list poll) :
  messages (l1 ++ l2) = messages l1 ++ messages l2.
Proof.
  induction l1 as [|[m| | |e] l1 IH]; cbn; by rewrite ?IH.
Qed.

(** C10.  In [get_offsets_closest_to_timestamp] the budget of a partition is
    never filled up again.  One step of the loop leaves the budget as it is
    when a message is consumed and takes one from it at a timeout.  So, once
    the topic has been fetched and no consumer raises anything but the two
    signals, a partition whose consumer answers with messages and timeouts
    in any order is polled, in the trace of the call, exactly up to its
    fifth timeout: the answers before it have all been polled, none after
    it is, and the messages that count for the returned offsets are those
    before it.  This holds for every partition of the topic, whatever the
    scans of the other partitions used up. *)
Theorem resolver_budget_never_replenished cluster topic_name limit t topic :
  get_cluster_topic cluster topic_name = (t, Ok topic) ->
  (∀ p, forallb no_failure (deliveries cluster topic_name p) = true) ->
  let keys := keys_in_order (partition_id <$> partitions topic) in
  (∃ t',
     get_offsets_closest_to_timestamp cluster topic_name limit =
       (t', Ok (foldl (record_offset limit)
                  (list_to_map ((λ part, (partition_id part, 0)) <$> partitions topic))
                  (consumed cluster topic_name keys))) ∧
     ∀ part pre rest, part ∈ partitions topic ->
       deliveries cluster topic_name (partition_id part)
         = pre ++ MessageEmptyException :: rest ->
       forallb message_or_timeout pre = true ->
       timeouts pre = 4%nat ->
       polls_of (partition_id part) t' = S (length pre) ∧
       messages (polled 5 (deliveries cluster topic_name (partition_id part)))
         = messages pre) ∧
  (∀ s m c, scan_consumer s = Delivered m :: c ->
     ∃ s', poll_once limit s = Ok s' ∧ max_retry_count s' = max_retry_count s) ∧
  (∀ s c, scan_consumer s = MessageEmptyException :: c ->
     ∃ s', poll_once limit s = Ok s' ∧ max_retry_count s' = max_retry_count s - 1).
Proof.
  intros Htopic Hquiet keys. split; [|split].
  - destruct (resolver_polls cluster topic_name limit t topic Htopic Hquiet)
      as (t' & offsets & Hrun & Hpolls).
    destruct (get_offsets_run cluster topic_name limit t topic Htopic) as (t'' & Hrun').
    { apply Forall_forall. intros p _. apply no_failure_polled, Hquiet. }
    rewrite Hrun in Hrun'. injection Hrun' as <- ->.
    exists t'. split; [exact Hrun|].
    intros part pre rest Hpart Hp Hpre Hcount. split.
    + rewrite (Hpolls part Hpart), Hp. by apply polls_until_fifth_timeout.
    + rewrite Hp, polled_until_fifth_timeout by (done || lia).
      rewrite messages_app. cbn. by rewrite app_nil_r.
  - intros s m c Hs. unfold poll_once. rewrite Hs. cbn. eauto.
  - intros s c Hs. unfold poll_once. rewrite Hs. cbn. eauto.
Qed.

Lemma resolver_budget_never_replenished_witness :
  ∃ t' offsets,
    get_offsets_closest_to_timestamp flaky_cluster "orders" 5000000 = (t', Ok offsets) ∧
    polls_of 0 t' = 7%nat.
Proof.
  eassert (get_cluster_topic flaky_cluster "orders" = (_, Ok _)) as Hfetch
    by (vm_compute; reflexivity).
  destruct (resolver_budget_never_replenished flaky_cluster "orders" 5000000 _ _ Hfetch)
    as ((t' & Hrun & Hparts) & _).
  - intros p. cbn. case_decide; reflexivity.
  - eexists t', _. split; [exact Hrun|].
    refine (proj1 (Hparts {| partition_id := 0; low_watermark := 0; high_watermark := 2;
                             partition_isrs := [1]; partition_leader := 1;
                             partition_replicas := [1];
                             latest_message_timestamp := Some (2500 # 1000)%Q |}
                     [MessageEmptyException; Delivered (example_message 0 0 1000);
                      MessageEmptyException; MessageEmptyException;
                      Delivered (example_message 0 1 2000); MessageEmptyException]
                     [Delivered (example_message 0 2 3000); EndOfPartitionReachedException]
                     _ eq_refl eq_refl eq_refl)).
    left.
Defined.

Example example_flaky_offsets :
  outcome (get_offsets_closest_to_timestamp flaky_cluster "orders" 5000000) =
    Ok {[ 0 := 2; 1 := 0 ]}.
Proof. vm_compute. reflexivity. Qed.

(** * The diff against the counts of the cluster *)

Lemma partition_snapshot_metadata cluster low high topic item t part :
  partition_snapshot cluster low high topic item = (t, Ok part) ->
  partition_isrs part = isrs item.2 ∧
  partition_leader part = leader item.2 ∧
  partition_replicas part = replicas item.2.
Proof.
  destruct item as [pid meta]. unfold partition_snapshot, getitem.
  destruct (low !! pid) as [lo|]; [|done].
  destruct (high !! pid) as [hi|]; [|done]. run_M.
  case_bool_decide.
  - destruct (log cluster (name topic) pid (hi - 1)); run_M; [|done].
    by intros [= _ <-].
  - run_M. by intros [= _ <-].
Qed.

Lemma get_cluster_topic_counts cluster topic_name t topic :
  get_cluster_topic cluster topic_name = (t, Ok topic) ->
  let items := ct_partitions (list_topics_of cluster topic_name) in
  num_partitions topic = Some (Z.of_nat (length items)) ∧
  ∀ r, items ≠ [] ->
       Forall (λ item, length (replicas item.2) = r) items ->
       replication_factor topic = Some (Z.of_nat r).
Proof.
  intros Hfetch items. unfold get_cluster_topic in Hfetch.
  apply update_from_cluster_Ok_inv
    in Hfetch as (p & cfg & data & _ & _ & _ & Hdata & -> & _).
  cbn [name new_Topic] in Hdata. unfold _get_partition_data in Hdata.
  fold items in Hdata. apply mapM_Ok in Hdata.
  cbn [num_partitions replication_factor]. split.
  - unfold cluster_num_partitions. by rewrite (Forall2_length _ _ _ Hdata).
  - intros r Hne Hr. destruct Hdata as [|item part items' data [t' Hpart] _]; [done|].
    apply partition_snapshot_metadata in Hpart as (_ & _ & Hpart).
    cbn [cluster_replication_factor]. rewrite Hpart.
    by apply Forall_cons in Hr as [-> _].
Qed.

Lemma of_int_inj o1 o2 : of_int o1 = of_int o2 -> o1 = o2.
Proof. destruct o1, o2; cbn; congruence. Qed.

Lemma count_diffs_num_partitions cluster_topic local :
  count_diffs cluster_topic local !! "num_partitions" =
    if decide (num_partitions cluster_topic = num_partitions local) then None
    else Some (of_int (num_partitions cluster_topic), of_int (num_partitions local)).
Proof.
  unfold count_diffs. rewrite !set_diff_lookup, lookup_empty.
  rewrite decide_False by (by intros [? _]).
  destruct (decide (num_partitions cluster_topic = num_partitions local)) as [Heq|Hne].
  - rewrite decide_False; [done|]. intros [_ Hd]. apply Hd. by rewrite Heq.
  - rewrite decide_True; [done|]. split; [done|]. by intros ?%of_int_inj.
Qed.

Lemma count_diffs_replication_factor cluster_topic local :
  count_diffs cluster_topic local !! "replication_factor" =
    if decide (replication_factor cluster_topic = replication_factor local) then None
    else Some (of_int (replication_factor cluster_topic),
               of_int (replication_factor local)).
Proof.
  unfold count_diffs. rewrite !set_diff_lookup, lookup_empty.
  destruct (decide (replication_factor cluster_topic = replication_factor local))
    as [Heq|Hne].
  - rewrite decide_False by (intros [_ Hd]; apply Hd; by rewrite Heq).
    by rewrite decide_False by (by intros [? _]).
  - rewrite decide_True; [done|]. split; [done|]. by intros ?%of_int_inj.
Qed.

(** C5.  For a local-only topic whose cluster counterpart has been fetched,
    [diff_with_cluster] compares [num_partitions], [replication_factor] and
    every key of the cluster's configuration, and nothing else.  The counts
    it compares the local ones with are the cluster's: the number of
    partitions in the admin metadata and the number of replicas of those
    partitions.  A count is an entry of the diff, with (cluster value, local
    value), exactly when the two values differ, and so is a key of the
    cluster's configuration; a key the local topic lacks is compared with
    [None] and is an entry.  Every entry holds two values that differ; a
    local topic equal to its cluster counterpart in the two counts and the
    configuration gives the empty diff; and when only the value of one
    configuration key is changed the diff is exactly that key with (cluster
    value, local value). *)
Theorem diff_holds_differing_fields cluster local t cluster_topic :
  is_only_local local = true ->
  get_cluster_topic cluster (name local) = (t, Ok cluster_topic) ->
  let items := ct_partitions (list_topics_of cluster (name local)) in
  num_partitions cluster_topic = Some (Z.of_nat (length items)) ∧
  (∀ r, items ≠ [] ->
        Forall (λ item, length (replicas item.2) = r) items ->
        replication_factor cluster_topic = Some (Z.of_nat r)) ∧
  ∃ diffs,
    diff_with_cluster cluster local = (t, Ok diffs) ∧
    (config cluster_topic !! "num_partitions" = None ->
     diffs !! "num_partitions" =
       if decide (num_partitions cluster_topic = num_partitions local) then None
       else Some (of_int (num_partitions cluster_topic),
                  of_int (num_partitions local))) ∧
    (config cluster_topic !! "replication_factor" = None ->
     diffs !! "replication_factor" =
       if decide (replication_factor cluster_topic = replication_factor local)
       then None
       else Some (of_int (replication_factor cluster_topic),
                  of_int (replication_factor local))) ∧
    (∀ k, is_Some (diffs !! k) ->
       k = "num_partitions" ∨ k = "replication_factor" ∨
       is_Some (config cluster_topic !! k)) ∧
    (∀ k v, config cluster_topic !! k = Some v ->
       VStr v ≠ of_str (config local !! k) ->
       diffs !! k = Some (VStr v, of_str (config local !! k))) ∧
    (∀ k old new, diffs !! k = Some (old, new) -> old ≠ new) ∧
    (∀ k v, config cluster_topic !! k = Some v -> config local !! k = None ->
       diffs !! k = Some (VStr v, VNone)) ∧
    (num_partitions local = num_partitions cluster_topic ->
     replication_factor local = replication_factor cluster_topic ->
     config local = config cluster_topic ->
     diffs = ∅) ∧
    (∀ k v v',
       num_partitions local = num_partitions cluster_topic ->
       replication_factor local = replication_factor cluster_topic ->
       config cluster_topic !! k = Some v -> v' ≠ v ->
       config local = <[k := v']> (config cluster_topic) ->
       diffs = {[ k := (VStr v, VStr v') ]}).
Proof.
  intros Hlocal Hfetch items.
  destruct (get_cluster_topic_counts cluster (name local) t cluster_topic Hfetch)
    as [Hpartitions Hreplicas].
  split; [exact Hpartitions|]. split; [exact Hreplicas|].
  destruct (diff_with_cluster_run cluster local t cluster_topic Hlocal Hfetch)
    as (diffs & Hrun & Hdiffs).
  exists diffs. split; [exact Hrun|].
  split; [|split; [|repeat split]].
  - intros Hkey. by rewrite Hdiffs, Hkey, count_diffs_num_partitions.
  - intros Hkey. by rewrite Hdiffs, Hkey, count_diffs_replication_factor.
  - intros k [[old new] Hk]. rewrite Hdiffs in Hk.
    destruct (config cluster_topic !! k) as [v|]; [by eauto|].
    destruct (count_diffs_differ _ _ _ _ _ Hk) as [_ [->| ->]]; auto.
  - intros k v Hv Hne. by rewrite Hdiffs, Hv, decide_False.
  - intros k old new Hk. rewrite Hdiffs in Hk.
    destruct (config cluster_topic !! k) as [v|].
    + case_decide; [by apply count_diffs_differ in Hk as [? _]|].
      by injection Hk as <- <-.
    + by apply count_diffs_differ in Hk as [? _].
  - intros k v Hv Hnone. by rewrite Hdiffs, Hv, Hnone, decide_False.
  - intros Hp Hr Hc. apply map_eq. intros k.
    rewrite Hdiffs, count_diffs_equal, lookup_empty, Hc by done.
    destruct (config cluster_topic !! k); [|done]. by rewrite decide_True.
  - intros k v v' Hp Hr Hv Hne Hc. apply map_eq. intros j.
    rewrite Hdiffs, count_diffs_equal, lookup_empty, Hc by done.
    destruct (decide (k = j)) as [<-|Hj].
    + rewrite Hv, lookup_insert_eq, lookup_singleton_eq. cbn [of_str].
      by rewrite decide_False by congruence.
    + rewrite lookup_insert_ne, lookup_singleton_ne by done.
      destruct (config cluster_topic !! j); [|done]. by rewrite decide_True.
Qed.

Lemma diff_holds_differing_fields_witness :
  let local :=
    {| name := "orders"; num_partitions := Some 1; replication_factor := Some 1;
       config := {[ "cleanup.policy" := "compact" ]}; partition_data := [];
       is_only_local := true |} in
  ∃ t diffs,
    diff_with_cluster example_cluster local = (t, Ok diffs) ∧
    diffs !! "num_partitions" = Some (VInt 2, VInt 1) ∧
    diffs !! "replication_factor" = None ∧
    diffs !! "cleanup.policy" = Some (VStr "delete", VStr "compact").
Proof.
  intros local.
  eassert (get_cluster_topic example_cluster (name local) = (_, Ok _)) as Hfetch
    by (vm_compute; reflexivity).
  destruct (diff_holds_differing_fields example_cluster local _ _ eq_refl Hfetch)
    as (_ & _ & diffs & Hrun & Hpartitions & Hreplicas & _ & Hkey & _).
  eexists _, diffs. split; [exact Hrun|]. split; [|split].
  - rewrite Hpartitions by (vm_compute; reflexivity). vm_compute. reflexivity.
  - rewrite Hreplicas by (vm_compute; reflexivity). vm_compute. reflexivity.
  - rewrite (Hkey "cleanup.policy" "delete") by (vm_compute; done).
    vm_compute. reflexivity.
Defined.

(** The scenario of the spec on the example: the cluster has the topic with
    2 partitions, 1 replica and [cleanup.policy = delete]. *)
Example example_diff_counts_and_policy :
  outcome (diff_with_cluster example_cluster
             {| name := "orders"; num_partitions := Some 1;
                replication_factor := Some 1;
                config := {[ "cleanup.policy" := "compact" ]};
                partition_data := []; is_only_local := true |}) =
    Ok {[ "num_partitions" := (VInt 2, VInt 1);
          "cleanup.policy" := (VStr "delete", VStr "compact") ]}.
Proof. vm_compute. reflexivity. Qed.

Example example_diff_identical :
  outcome (diff_with_cluster example_cluster
             {| name := "orders"; num_partitions := Some 2;
                replication_factor := Some 1;
                config := {[ "cleanup.policy" := "delete" ]};
                partition_data := []; is_only_local := true |}) = Ok ∅.
Proof. vm_compute. reflexivity. Qed.
